(** * RingWeights_core: a shallow embedding of the ring-weights estimator

    The C file [src/Core/functions_CPU/RingWeights_core.c] computes, from a
    residual volume, weights built out of sliding-window order statistics
    taken along the detector, angle and projection (slice) axes.

    The embedding keeps the shape of the C code:
    - [float] is IEEE binary32, through the Standard Library's [SpecFloat]
      at precision 24 and maximal exponent 128;
    - a [float *] buffer is a [list float]; every load and store is checked
      against the buffer's bounds, and an access outside the buffer (C's
      undefined behaviour) makes the whole computation [None];
    - [int] and [long] values are [Z] (signed overflow is undefined in C and
      is not modelled), and every float operation rounds once to binary32,
      the conversion of an [int] to [float] included;
    - [calloc] always succeeds;
    - a [for] loop is [for_range], a fold in the option monad that threads
      the buffers the loop body writes. *)

From Stdlib Require Import ZArith Lia.
From Stdlib Require Import Floats.SpecFloat.
From stdpp Require Import base option list list_numbers sorting.

Local Open Scope Z_scope.

(** ** Single-precision numbers *)

Module F32.
Definition prec : Z := 24.
Definition emax : Z := 128.

Definition float : Type := spec_float.

(** [+0.0f], what [calloc] fills a buffer with. *)
Definition fzero : float := S754_zero false.
(** The literal [0.5f] = 2^23 * 2^-24. *)
Definition fhalf : float := S754_finite false 8388608 (-24).

Definition fadd : float → float → float := SFadd prec emax.
Definition fsub : float → float → float := SFsub prec emax.
Definition fmul : float → float → float := SFmul prec emax.
(** C's [a > b] on floats: false as soon as one side is a NaN. *)
Definition fgt (a b : float) : bool := SFltb b a.
Definition fle (a b : float) : Prop := SFleb a b = true.

(** The binary32 value of an integer constant. *)
Definition of_Z (n : Z) : float := binary_normalize prec emax n 0 false.

Definition is_nan (a : float) : bool :=
  match a with S754_nan => true | _ => false end.


(** [(int) x] for a float [x]: truncation toward zero. *)
Definition to_int (x : float) : option Z :=
  match x with
  | S754_zero _ => Some 0
  | S754_finite s m e =>
      Some (cond_Zopp s (if 0 <=? e then Z.pos m * 2 ^ e
                         else Z.pos m / 2 ^ (- e)))
  | _ => None
  end.
End F32.
Import F32.

(** ** Buffers and loops *)

(** [calloc(n, sizeof(float))]: [n] zeros; a non-positive [n] gives a buffer
    with no accessible cell. *)
Definition calloc (n : Z) : list float := replicate (Z.to_nat n) fzero.

(** [buf[p]] as an rvalue. *)
Definition load {A} (buf : list A) (p : Z) : option A :=
  if 0 <=? p then buf !! Z.to_nat p else None.

(** [buf[p] = v]. *)
Definition store {A} (buf : list A) (p : Z) (v : A) : option (list A) :=
  if (0 <=? p) && (p <? Z.of_nat (length buf))
  then Some (<[Z.to_nat p := v]> buf) else None.

(** Running a loop body over the successive values of the loop variable. *)
Fixpoint for_each {X S} (xs : list X) (body : X → S → option S) (s : S)
  : option S :=
  match xs with
  | [] => Some s
  | x :: xs' =>
      match body x s with
      | Some s' => for_each xs' body s'
      | None => None
      end
  end.

(** [for (x = lo; x < hi; x++) body] *)
Definition for_range {S} (lo hi : Z) (body : Z → S → option S) (s : S)
  : option S :=
  for_each (seqZ lo (hi - lo)) body s.

(** ** Sorting the window: [swap] and the bubble sort of every filter *)

Section Sorting.
Context {A : Type} (gt : A → A → bool).

(** [swap(&v[x], &v[y])] *)
Definition swap (v : list A) (x y : Z) : option (list A) :=
  temp ← load v x;
  yv ← load v y;
  v1 ← store v x yv;
  store v1 y temp.

(** [if (v[y] > v[y+1]) swap(&v[y], &v[y+1]);] *)
Definition compare_swap (y : Z) (v : list A) : option (list A) :=
  a ← load v y;
  b ← load v (y + 1);
  if gt a b then swap v y (y + 1) else Some v.

(** [for (x = 0; x < counter-1; x++)
      for (y = 0; y < counter-x-1; y++) compare_swap] *)
Definition bubble_sort (v : list A) (counter : Z) : option (list A) :=
  for_range 0 (counter - 1)
    (λ x v, for_range 0 (counter - x - 1) compare_swap v) v.

(** The list-level reading of one inner loop: [n] compare-and-swap steps
    walking from the head of the list. *)
Fixpoint bubble (n : nat) (l : list A) : list A :=
  match n, l with
  | S n', a :: b :: t =>
      if gt a b then b :: bubble n' (a :: t) else a :: bubble n' (b :: t)
  | _, _ => l
  end.

(** The list-level reading of the outer loop: passes of decreasing
    length [n], [n-1], ..., [1]. *)
Fixpoint bubble_passes (n : nat) (l : list A) : list A :=
  match n with
  | O => l
  | S n' => bubble_passes n' (bubble n l)
  end.

Definition sort_window (l : list A) : list A :=
  bubble_passes (length l - 1) l.
End Sorting.

(** ** The axis filter shared by the five [RingWeights_*] functions

    Each of [RingWeights_det2D], [RingWeights_angles2D], [RingWeights_proj3D],
    [RingWeights_det3D] and [RingWeights_angles3D] has the same body: it
    gathers [2h+1] samples along its axis, sorts them, and stores the sample
    at position [midval].  They differ in the axis walked ([pos] within
    [axisLen]) and in the flat index [nb p] of the neighbour at axis
    coordinate [p]. *)

(** [midval = (int)(0.5f*full_window) - 1], evaluated as the C expression
    is: the window size is converted to [float], multiplied by [0.5f] in
    binary32, cast back with truncation toward zero, and decremented. *)
Definition midval (full_window : Z) : option Z :=
  m ← to_int (fmul fhalf (of_Z full_window)); Some (m - 1).

(** The gathering loop,
    [for (k = -h; k <= h; k++) { p1 = pos + k; ...; counter++; }] *)
Definition gather (src : list float) (h axisLen pos index : Z) (nb : Z → Z)
    (Values_Vec : list float) : option (list float * Z) :=
  for_range (- h) (h + 1)
    (λ k '(vv, counter),
       let p1 := pos + k in
       v ← (if (0 <=? p1) && (p1 <? axisLen)
            then load src (nb p1) else load src index);
       vv' ← store vv counter v;
       Some (vv', counter + 1))
    (Values_Vec, 0).

(** Gather, sort, select: the value a filter stores at [index]. *)
Definition axis_median (src : list float) (h full_window axisLen pos index : Z)
    (nb : Z → Z) : option float :=
  let Values_Vec := calloc full_window in
  mid ← midval full_window;
  '(Values_Vec, counter) ← gather src h axisLen pos index nb Values_Vec;
  Values_Vec ← bubble_sort fgt Values_Vec counter;
  load Values_Vec mid.

(** *** 2D filters *)

Definition det2D_median (residual : list float) (h full_window : Z)
    (anglesDim detectorsDim j i : Z) : option float :=
  axis_median residual h full_window detectorsDim j (i * detectorsDim + j)
    (λ j1, i * detectorsDim + j1).

Definition RingWeights_det2D (residual weights_temp : list float)
    (window_halfsize_detectors detectors_full_window : Z)
    (anglesDim detectorsDim j i : Z) : option (list float) :=
  let index := i * detectorsDim + j in
  v ← det2D_median residual window_halfsize_detectors detectors_full_window
        anglesDim detectorsDim j i;
  store weights_temp index v.

Definition angles2D_median (src : list float) (h full_window : Z)
    (anglesDim detectorsDim j i : Z) : option float :=
  axis_median src h full_window anglesDim i (i * detectorsDim + j)
    (λ i1, i1 * detectorsDim + j).

Definition RingWeights_angles2D (weights_temp weights : list float)
    (window_halfsize_angles angles_full_window : Z)
    (anglesDim detectorsDim j i : Z) : option (list float) :=
  let index := i * detectorsDim + j in
  v ← angles2D_median weights_temp window_halfsize_angles angles_full_window
        anglesDim detectorsDim j i;
  store weights index v.

(** *** 3D filters *)

Definition proj3D_median (residual : list float) (h full_window : Z)
    (anglesDim detectorsDim slices j i k : Z) : option float :=
  axis_median residual h full_window slices k
    (detectorsDim * anglesDim * k + i * detectorsDim + j)
    (λ k1, detectorsDim * anglesDim * k1 + i * detectorsDim + j).

Definition RingWeights_proj3D (residual weights_temp : list float)
    (window_halfsize_projections projections_full_window : Z)
    (anglesDim detectorsDim slices j i k : Z) : option (list float) :=
  let index := detectorsDim * anglesDim * k + i * detectorsDim + j in
  v ← proj3D_median residual window_halfsize_projections
        projections_full_window anglesDim detectorsDim slices j i k;
  store weights_temp index v.

Definition det3D_median (residual : list float) (h full_window : Z)
    (anglesDim detectorsDim slices j i k : Z) : option float :=
  axis_median residual h full_window detectorsDim j
    (detectorsDim * anglesDim * k + i * detectorsDim + j)
    (λ j1, detectorsDim * anglesDim * k + i * detectorsDim + j1).

Definition RingWeights_det3D (residual weights_temp : list float)
    (window_halfsize_detectors detectors_full_window : Z)
    (anglesDim detectorsDim slices j i k : Z) : option (list float) :=
  let index := detectorsDim * anglesDim * k + i * detectorsDim + j in
  v ← det3D_median residual window_halfsize_detectors detectors_full_window
        anglesDim detectorsDim slices j i k;
  store weights_temp index v.

Definition angles3D_median (src : list float) (h full_window : Z)
    (anglesDim detectorsDim slices j i k : Z) : option float :=
  axis_median src h full_window anglesDim i
    (detectorsDim * anglesDim * k + i * detectorsDim + j)
    (λ i1, detectorsDim * anglesDim * k + i1 * detectorsDim + j).

Definition RingWeights_angles3D (weights_temp weights : list float)
    (window_halfsize_angles angles_full_window : Z)
    (anglesDim detectorsDim slices j i k : Z) : option (list float) :=
  let index := detectorsDim * anglesDim * k + i * detectorsDim + j in
  v ← angles3D_median weights_temp window_halfsize_angles angles_full_window
        anglesDim detectorsDim slices j i k;
  store weights index v.


(** ** The driver: [RingWeights_main] *)

(** The loop nests of [RingWeights_main] that call one filter at every cell:
    [for i < anglesDim, for j < detectorsDim] in 2D and
    [for k < slices, for i < anglesDim, for j < detectorsDim] in 3D. *)
Definition pass2D (f : Z → Z → list float → option (list float))
    (anglesDim detectorsDim : Z) (dst : list float) : option (list float) :=
  for_range 0 anglesDim
    (λ i dst, for_range 0 detectorsDim (λ j dst, f j i dst) dst) dst.

Definition pass3D (f : Z → Z → Z → list float → option (list float))
    (anglesDim detectorsDim slices : Z) (dst : list float)
  : option (list float) :=
  for_range 0 slices
    (λ k dst, for_range 0 anglesDim
       (λ i dst, for_range 0 detectorsDim (λ j dst, f j i k dst) dst) dst)
    dst.

(** [for (i = 0; i < n; i++) weights[i] = a[i] - b[i];] *)
Definition sub_loop (n : Z) (a b weights : list float) : option (list float) :=
  for_range 0 n
    (λ i weights, x ← load a i; y ← load b i; store weights i (fsub x y))
    weights.

(** [for (i = 0; i < n; i++) weights[i] = a[i] - weights[i];] *)
Definition sub_loop_inplace (n : Z) (a weights : list float)
  : option (list float) :=
  for_range 0 n
    (λ i weights, x ← load a i; y ← load weights i;
                  store weights i (fsub x y))
    weights.

(** [for (i = 0; i < n; i++) weights[i] = a[i] - 0.5f*(b[i] + c[i]);] *)
Definition half_loop (n : Z) (a b c weights : list float)
  : option (list float) :=
  for_range 0 n
    (λ i weights, x ← load a i; y ← load b i; z ← load c i;
                  store weights i (fsub x (fmul fhalf (fadd y z))))
    weights.

(** [for (i = 0; i < n; i++) weights[i] = a[i] - 0.5f*(b[i] + weights[i]);] *)
Definition half_loop_inplace (n : Z) (a b weights : list float)
  : option (list float) :=
  for_range 0 n
    (λ i weights, x ← load a i; y ← load b i; z ← load weights i;
                  store weights i (fsub x (fmul fhalf (fadd y z))))
    weights.

(** The conditions of the six [if] blocks of the 3D path, in source order. *)
Definition cond_proj_only (hd ha hp : Z) : bool := (ha =? 0) && (hd =? 0).
Definition cond_det_only (hd ha hp : Z) : bool := (ha =? 0) && (hp =? 0).
Definition cond_all (hd ha hp : Z) : bool :=
  negb (ha =? 0) && negb (hp =? 0) && negb (hd =? 0).
Definition cond_angles_proj (hd ha hp : Z) : bool :=
  negb (ha =? 0) && negb (hp =? 0) && (hd =? 0).
Definition cond_angles_det (hd ha hp : Z) : bool :=
  negb (ha =? 0) && (hp =? 0) && negb (hd =? 0).
Definition cond_proj_det (hd ha hp : Z) : bool :=
  (ha =? 0) && negb (hp =? 0) && negb (hd =? 0).

(** The result is the returned float [*weights] together with the final
    contents of the caller's [weights] buffer; [residual] is never written. *)
Definition RingWeights_main (residual weights : list float)
    (window_halfsize_detectors window_halfsize_angles
     window_halfsize_projections : Z)
    (anglesDim detectorsDim slices : Z) : option (float * list float) :=
  let detectors_full_window := 2 * window_halfsize_detectors + 1 in
  let angles_full_window := 2 * window_halfsize_angles + 1 in
  let projections_full_window := 2 * window_halfsize_projections + 1 in
  let n := anglesDim * detectorsDim * slices in
  let det2D dst :=
    pass2D (λ j i dst, RingWeights_det2D residual dst
                         window_halfsize_detectors detectors_full_window
                         anglesDim detectorsDim j i)
      anglesDim detectorsDim dst in
  let angles2D dst :=
    pass2D (λ j i dst, RingWeights_angles2D residual dst
                         window_halfsize_angles angles_full_window
                         anglesDim detectorsDim j i)
      anglesDim detectorsDim dst in
  let proj3D dst :=
    pass3D (λ j i k dst, RingWeights_proj3D residual dst
                           window_halfsize_projections projections_full_window
                           anglesDim detectorsDim slices j i k)
      anglesDim detectorsDim slices dst in
  let det3D dst :=
    pass3D (λ j i k dst, RingWeights_det3D residual dst
                           window_halfsize_detectors detectors_full_window
                           anglesDim detectorsDim slices j i k)
      anglesDim detectorsDim slices dst in
  let angles3D dst :=
    pass3D (λ j i k dst, RingWeights_angles3D residual dst
                           window_halfsize_angles angles_full_window
                           anglesDim detectorsDim slices j i k)
      anglesDim detectorsDim slices dst in
  let weights_temp := calloc n in
  weights ←
    (if slices =? 1 then
       (* 2D input; the combination loops run to anglesDim*detectorsDim *)
       if window_halfsize_angles =? 0 then
         weights_temp ← det2D weights_temp;
         sub_loop (anglesDim * detectorsDim) residual weights_temp weights
       else
         weights_temp ← angles2D weights_temp;
         weights ← det2D weights;
         sub_loop_inplace (anglesDim * detectorsDim) weights_temp weights
     else
       (* 3D input: six independent [if] blocks, run one after the other *)
       let weights_temp2 := calloc n in
       '(weights, weights_temp) ←
         (if cond_proj_only window_halfsize_detectors window_halfsize_angles
               window_halfsize_projections
          then
            weights_temp ← proj3D weights_temp;
            weights ← sub_loop n residual weights_temp weights;
            Some (weights, weights_temp)
          else Some (weights, weights_temp));
       '(weights, weights_temp) ←
         (if cond_det_only window_halfsize_detectors window_halfsize_angles
               window_halfsize_projections
          then
            weights_temp ← det3D weights_temp;
            weights ← sub_loop n residual weights_temp weights;
            Some (weights, weights_temp)
          else Some (weights, weights_temp));
       '(weights, weights_temp, weights_temp2) ←
         (if cond_all window_halfsize_detectors window_halfsize_angles
               window_halfsize_projections
          then
            weights_temp ← angles3D weights_temp;
            weights_temp2 ← proj3D weights_temp2;
            weights ← det3D weights;
            weights ← half_loop_inplace n weights_temp weights_temp2 weights;
            Some (weights, weights_temp, weights_temp2)
          else Some (weights, weights_temp, weights_temp2));
       '(weights, weights_temp, weights_temp2) ←
         (if cond_angles_proj window_halfsize_detectors
               window_halfsize_angles window_halfsize_projections
          then
            weights_temp ← angles3D weights_temp;
            weights_temp2 ← proj3D weights_temp2;
            weights ← sub_loop n weights_temp weights_temp2 weights;
            Some (weights, weights_temp, weights_temp2)
          else Some (weights, weights_temp, weights_temp2));
       '(weights, weights_temp, weights_temp2) ←
         (if cond_angles_det window_halfsize_detectors
               window_halfsize_angles window_halfsize_projections
          then
            weights_temp ← angles3D weights_temp;
            weights_temp2 ← det3D weights_temp2;
            weights ← sub_loop n weights_temp weights_temp2 weights;
            Some (weights, weights_temp, weights_temp2)
          else Some (weights, weights_temp, weights_temp2));
       '(weights, weights_temp, weights_temp2) ←
         (if cond_proj_det window_halfsize_detectors window_halfsize_angles
               window_halfsize_projections
          then
            weights_temp ← proj3D weights_temp;
            weights_temp2 ← det3D weights_temp2;
            weights ← half_loop n residual weights_temp weights_temp2 weights;
            Some (weights, weights_temp, weights_temp2)
          else Some (weights, weights_temp, weights_temp2));
       Some weights);
  r ← load weights 0;
  Some (r, weights).
(** ** The window a filter gathers, stated tap by tap *)

(** The sample read for tap offset [t]: the neighbour at axis coordinate
    [pos + t] when that coordinate lies in [[0, axisLen)], and the centre
    cell [index] itself otherwise. *)
Definition tap (src : list float) (axisLen pos index : Z) (nb : Z → Z)
    (t : Z) : option float :=
  if (0 <=? pos + t) && (pos + t <? axisLen)
  then load src (nb (pos + t)) else load src index.

(** The [2h+1] samples for [t = -h, ..., h], in gathering order. *)
Definition window (src : list float) (h axisLen pos index : Z) (nb : Z → Z)
  : option (list float) :=
  mapM (tap src axisLen pos index nb) (seqZ (- h) (2 * h + 1)).

(** ** The selected position *)

(** For half-size [h], the position [midval] computed from the size [2h+1]
    of the window lies inside the window. *)
Definition selects_in_window (h : Z) : Prop :=
  ∃ m, midval (2 * h + 1) = Some m ∧ 0 ≤ m < 2 * h + 1.

(** ** The cells a pass visits, in loop order *)

Definition cells2D (anglesDim detectorsDim : Z) : list (Z * Z) :=
  i ← seqZ 0 anglesDim; j ← seqZ 0 detectorsDim; [(i, j)].

Definition cells3D (anglesDim detectorsDim slices : Z) : list (Z * Z * Z) :=
  k ← seqZ 0 slices; i ← seqZ 0 anglesDim; j ← seqZ 0 detectorsDim;
  [(k, i, j)].

(** Row-major flat index of a cell. *)
Definition index2D (detectorsDim : Z) (c : Z * Z) : Z :=
  let '(i, j) := c in i * detectorsDim + j.

Definition index3D (anglesDim detectorsDim : Z) (c : Z * Z * Z) : Z :=
  let '(k, i, j) := c in detectorsDim * anglesDim * k + i * detectorsDim + j.

(** ** Sample data used by the worked examples *)

(** The row [10, 1, 1]. *)
Definition row_10_1_1 : list float := of_Z <$> [10; 1; 1].
(** The row [1, 2, 3, 4, 5]. *)
Definition row_1_to_5 : list float := of_Z <$> [1; 2; 3; 4; 5].
(** The row [3, NaN, 1]. *)
Definition row_3_nan_1 : list float := [of_Z 3; S754_nan; of_Z 1].
(** The constant row [5, 5, 5, 5]. *)
Definition row_5555 : list float := of_Z <$> [5; 5; 5; 5].
(** A volume with 1 angle, 3 detectors and 2 slices:
    slice 0 is [10, 1, 1] and slice 1 is [4, 9, 2]. *)
Definition volume_1x3x2 : list float := of_Z <$> [10; 1; 1; 4; 9; 2].
(** Six cells holding 7: a [weights] buffer for that volume. *)
Definition sevens_6 : list float := of_Z <$> [7; 7; 7; 7; 7; 7].
(** A 2 x 2 x 2 volume. *)
Definition volume_2x2x2 : list float := of_Z <$> [3; 8; 1; 6; 7; 2; 9; 4].

(** ** Slices of a volume *)

(** Slice [k] of a volume of [anglesDim * detectorsDim] cells per slice:
    the cells with flat indices from [k * anglesDim * detectorsDim] on. *)
Definition slice_of (residual : list float) (anglesDim detectorsDim k : Z)
  : list float :=
  take (Z.to_nat (anglesDim * detectorsDim))
    (drop (Z.to_nat (k * (anglesDim * detectorsDim))) residual).

(** The number of 3D block conditions that hold for a triple of
    half-sizes. *)
Definition blocks_taken (hd ha hp : Z) : Z :=
  Z.b2z (cond_proj_only hd ha hp) + Z.b2z (cond_det_only hd ha hp)
  + Z.b2z (cond_all hd ha hp) + Z.b2z (cond_angles_proj hd ha hp)
  + Z.b2z (cond_angles_det hd ha hp) + Z.b2z (cond_proj_det hd ha hp).

(** * Properties *)

(** ** [midval] in binary32 *)

Lemma digits2_pos_lower (p : positive) :
  2 ^ (Z.pos (digits2_pos p) - 1) ≤ Z.pos p.
Proof.
  induction p as [p IH|p IH|]; simpl digits2_pos; [| |simpl; lia].
  - rewrite Pos2Z.inj_succ.
    replace (Z.succ (Z.pos (digits2_pos p)) - 1)
      with (Z.succ (Z.pos (digits2_pos p) - 1)) by lia.
    rewrite Z.pow_succ_r by lia. lia.
  - rewrite Pos2Z.inj_succ.
    replace (Z.succ (Z.pos (digits2_pos p)) - 1)
      with (Z.succ (Z.pos (digits2_pos p) - 1)) by lia.
    rewrite Z.pow_succ_r by lia. lia.
Qed.

Lemma digits2_pos_bound (p : positive) (n : Z) :
  Z.pos p < 2 ^ n → Z.pos (digits2_pos p) ≤ n.
Proof.
  intros Hp. pose proof (digits2_pos_lower p) as Hl.
  destruct (decide (Z.pos (digits2_pos p) ≤ n)) as [|Hgt]; [done|].
  assert (2 ^ n ≤ 2 ^ (Z.pos (digits2_pos p) - 1)).
  { apply Z.pow_le_mono_r; lia. }
  lia.
Qed.

Lemma iter_xO_digits (p k : positive) :
  digits2_pos (Pos.iter xO p k) = (digits2_pos p + k)%positive.
Proof.
  induction k as [|k IH] using Pos.peano_ind.
  - simpl. lia.
  - rewrite Pos.iter_succ. simpl. rewrite IH. lia.
Qed.

Lemma iter_xO_value (p k : positive) :
  Z.pos (Pos.iter xO p k) = Z.pos p * 2 ^ Z.pos k.
Proof.
  induction k as [|k IH] using Pos.peano_ind.
  - simpl. lia.
  - rewrite Pos.iter_succ, Pos2Z.inj_xO, IH, Pos2Z.inj_succ.
    rewrite Z.pow_succ_r by lia. lia.
Qed.

(** A 24-bit significand with an exponent in range is already rounded. *)
Lemma binary_round_aux_exact (s : bool) (m : positive) (e : Z) :
  Z.pos (digits2_pos m) = 24 → -149 ≤ e ≤ 104 →
  binary_round_aux prec emax s (Z.pos m) e loc_Exact = S754_finite s m e.
Proof.
  intros Hd He. unfold binary_round_aux, shr_fexp, fexp, emin, prec, emax.
  cbn [Zdigits2 shr_record_of_loc]. rewrite Hd.
  replace (Z.max (24 + e - 24) (3 - 128 - 24) - e) with 0 by lia.
  cbn [shr shr_m loc_of_shr_record round_nearest_even Zdigits2
         shr_record_of_loc].
  rewrite Hd.
  replace (Z.max (24 + e - 24) (3 - 128 - 24) - e) with 0 by lia.
  cbn [shr shr_m].
  destruct (Z.leb_spec e (128 - 24)); [done|lia].
Qed.

(** The binary32 value of a positive integer below 2^24 is exact: a 24-bit
    significand [m] with [m * 2^e = p]. *)
Lemma of_Z_pos_exact (p : positive) :
  Z.pos p < 2 ^ 24 →
  ∃ m e, of_Z (Z.pos p) = S754_finite false m e
         ∧ Z.pos (digits2_pos m) = 24 ∧ -23 ≤ e ≤ 0
         ∧ Z.pos m = Z.pos p * 2 ^ (- e).
Proof.
  intros Hp. pose proof (digits2_pos_bound p 24 Hp) as Hd.
  unfold of_Z, binary_normalize, binary_round, shl_align, fexp, emin,
    prec, emax.
  replace (Z.max (Z.pos (digits2_pos p) + 0 - 24) (3 - 128 - 24) - 0)
    with (Z.pos (digits2_pos p) - 24) by lia.
  replace (Z.max (Z.pos (digits2_pos p) + 0 - 24) (3 - 128 - 24))
    with (Z.pos (digits2_pos p) - 24) by lia.
  destruct (Z.pos (digits2_pos p) - 24) as [|k|k] eqn:Hk; [|lia|].
  - exists p, 0. rewrite binary_round_aux_exact by lia.
    repeat split; simpl; lia.
  - exists (Pos.iter xO p k), (Z.neg k).
    assert (Z.pos (digits2_pos (Pos.iter xO p k)) = 24) as Hd'.
    { rewrite iter_xO_digits. lia. }
    rewrite binary_round_aux_exact by lia.
    split; [done|]. split; [done|]. split; [lia|].
    rewrite iter_xO_value. done.
Qed.

(** Halving such a value is exact as well. *)
Lemma fmul_half_exact (m : positive) (e : Z) :
  Z.pos (digits2_pos m) = 24 → -23 ≤ e ≤ 100 →
  fmul fhalf (S754_finite false m e) = S754_finite false m (e - 1).
Proof.
  intros Hd He. unfold fmul, fhalf, SFmul. cbn [xorb].
  change (8388608 * m)%positive with (Pos.iter xO m 23).
  unfold binary_round_aux, shr_fexp, fexp, emin, prec, emax.
  cbn [Zdigits2 shr_record_of_loc]. rewrite iter_xO_digits.
  replace (Z.max (Z.pos (digits2_pos m + 23) + (-24 + e) - 24)
             (3 - 128 - 24) - (-24 + e)) with 23 by lia.
  cbn [shr].
  change (SpecFloat.iter_pos shr_1 23
            {| shr_m := Z.pos (Pos.iter xO m 23);
               shr_r := false; shr_s := false |})
    with {| shr_m := Z.pos m; shr_r := false; shr_s := false |}.
  cbn [shr_m loc_of_shr_record round_nearest_even Zdigits2
         shr_record_of_loc].
  rewrite Hd.
  replace (Z.max (24 + (-24 + e + 23) - 24) (3 - 128 - 24) - (-24 + e + 23))
    with 0 by lia.
  cbn [shr shr_m].
  destruct (Z.leb_spec (-24 + e + 23) (128 - 24)); [|lia].
  f_equal. lia.
Qed.

(** For every window below 2^24 samples the conversion to [float] and the
    halving are exact, and [midval] is [h - 1]. *)
Lemma midval_exact (h : Z) :
  0 ≤ h < 2 ^ 23 → midval (2 * h + 1) = Some (h - 1).
Proof.
  intros Hh. unfold midval.
  destruct (2 * h + 1) as [|p|p] eqn:Hp; [lia| |lia].
  destruct (of_Z_pos_exact p ltac:(lia)) as (m & e & -> & Hd & He & Hm).
  rewrite fmul_half_exact by (done || lia).
  cbn [to_int mbind option_bind cond_Zopp].
  destruct (Z.leb_spec 0 (e - 1)); [lia|].
  do 2 f_equal. rewrite Hm.
  replace (- (e - 1)) with (1 + - e) by lia.
  rewrite Z.pow_add_r by lia. change (2 ^ 1) with 2.
  rewrite Z.div_mul_cancel_r by lia.
  symmetry. apply (Z.div_unique _ _ _ 1); lia.
Qed.

(** Beyond that range the conversion of the window size to [float] rounds:
    for 16777219 samples, half-size 8388609, [midval] is the half-size
    itself. *)
Lemma midval_beyond_range : midval (2 * 8388609 + 1) = Some 8388609.
Proof. vm_compute. reflexivity. Qed.

(** *** Windows of 2^24 samples and more *)

Lemma digits2_pos_upper (p : positive) :
  Z.pos p < 2 ^ Z.pos (digits2_pos p).
Proof.
  induction p as [p IH|p IH|]; simpl digits2_pos; [| |simpl; lia];
    rewrite Pos2Z.inj_succ, Z.pow_succ_r by lia; lia.
Qed.

Lemma digits2_pos_eq (p : positive) (n : Z) :
  2 ^ (n - 1) ≤ Z.pos p < 2 ^ n → Z.pos (digits2_pos p) = n.
Proof.
  intros [Hlo Hhi].
  pose proof (digits2_pos_bound p n Hhi) as Hle.
  pose proof (digits2_pos_upper p) as Hup.
  destruct (decide (n ≤ Z.pos (digits2_pos p))) as [|Hlt]; [lia|].
  assert (2 ^ Z.pos (digits2_pos p) ≤ 2 ^ (n - 1))
    by (apply Z.pow_le_mono_r; lia).
  lia.
Qed.

Lemma shr_1_m (mrs : shr_record) :
  0 ≤ shr_m mrs → shr_m (shr_1 mrs) = shr_m mrs / 2.
Proof.
  destruct mrs as [m r s]. cbn [shr_m]. intros Hm.
  destruct m as [|[q|q|]|q]; cbn [shr_1 shr_m]; try done; try lia.
  - rewrite Pos2Z.inj_xI. apply (Z.div_unique _ _ _ 1); lia.
  - rewrite Pos2Z.inj_xO. apply (Z.div_unique _ _ _ 0); lia.
Qed.

Lemma pow2_double (a : Z) : 0 ≤ a → 2 ^ (a + a) = 2 ^ a * 2 ^ a.
Proof. intros. by apply Z.pow_add_r. Qed.

Lemma pow2_xO (n : positive) : 2 ^ Z.pos n~0 = 2 ^ Z.pos n * 2 ^ Z.pos n.
Proof.
  rewrite <- pow2_double by lia. f_equal. lia.
Qed.

Lemma pow2_xI (n : positive) :
  2 ^ Z.pos n~1 = 2 * (2 ^ Z.pos n * 2 ^ Z.pos n).
Proof.
  rewrite <- pow2_double by lia.
  rewrite <- (Z.pow_succ_r 2 (Z.pos n + Z.pos n)) by lia. f_equal. lia.
Qed.

Lemma iter_shr_1_m (n : positive) (mrs : shr_record) :
  0 ≤ shr_m mrs →
  shr_m (SpecFloat.iter_pos shr_1 n mrs) = shr_m mrs / 2 ^ Z.pos n.
Proof.
  revert mrs. induction n as [n IH|n IH|]; intros mrs Hm;
    cbn [SpecFloat.iter_pos].
  - assert (0 ≤ shr_m (shr_1 mrs))
      by (rewrite shr_1_m by done; apply Z.div_pos; lia).
    assert (0 ≤ shr_m (SpecFloat.iter_pos shr_1 n (shr_1 mrs)))
      by (rewrite IH by done; apply Z.div_pos; lia).
    rewrite !IH, shr_1_m by done.
    rewrite !Z.div_div by lia. by rewrite pow2_xI, !Z.mul_assoc.
  - assert (0 ≤ shr_m (SpecFloat.iter_pos shr_1 n mrs))
      by (rewrite IH by done; apply Z.div_pos; lia).
    rewrite !IH by done. rewrite Z.div_div by lia. by rewrite pow2_xO.
  - by rewrite shr_1_m by done.
Qed.

Lemma round_nearest_even_bounds (m : Z) (l : location) :
  m ≤ round_nearest_even m l ≤ m + 1.
Proof. destruct l as [|[]]; simpl; try destruct (Z.even m); lia. Qed.

(** The binary32 value of an integer of 25 to 31 bits is rounded to a 24-bit
    significand; it is at most twice the integer. *)
Lemma of_Z_pos_rounded (p : positive) :
  2 ^ 24 ≤ Z.pos p < 2 ^ 31 →
  ∃ m e, of_Z (Z.pos p) = S754_finite false m e
         ∧ Z.pos (digits2_pos m) = 24 ∧ 1 ≤ e ≤ 8
         ∧ Z.pos m * 2 ^ e ≤ 2 * Z.pos p.
Proof.
  intros [Hlo Hhi].
  pose proof (digits2_pos_bound p 31 Hhi) as Hd.
  pose proof (digits2_pos_upper p) as Hup.
  pose proof (digits2_pos_lower p) as Hlow.
  assert (25 ≤ Z.pos (digits2_pos p)) as Hd'.
  { destruct (decide (25 ≤ Z.pos (digits2_pos p))) as [|Hn]; [done|].
    assert (2 ^ Z.pos (digits2_pos p) ≤ 2 ^ 24)
      by (apply Z.pow_le_mono_r; lia).
    lia. }
  unfold of_Z, binary_normalize, binary_round, shl_align,
    fexp, emin, prec, emax.
  replace (Z.max (Z.pos (digits2_pos p) + 0 - 24) (3 - 128 - 24) - 0)
    with (Z.pos (digits2_pos p) - 24) by lia.
  destruct (Z.pos (digits2_pos p) - 24) as [|k|k] eqn:Hk; [lia| |lia].
  unfold binary_round_aux, shr_fexp, fexp, emin, prec, emax.
  cbn [Zdigits2 shr_record_of_loc].
  replace (Z.max (Z.pos (digits2_pos p) + 0 - 24) (3 - 128 - 24) - 0)
    with (Z.pos k) by lia.
  cbn [shr].
  set (mrs := SpecFloat.iter_pos shr_1 k
                {| shr_m := Z.pos p; shr_r := false; shr_s := false |}).
  assert (shr_m mrs = Z.pos p / 2 ^ Z.pos k) as Hm1
    by (apply iter_shr_1_m; simpl; lia).
  assert (2 ^ (Z.pos (digits2_pos p) - 1) = 2 ^ 23 * 2 ^ Z.pos k) as Hp1.
  { rewrite <- Z.pow_add_r by lia. f_equal. lia. }
  assert (2 ^ Z.pos (digits2_pos p) = 2 ^ 24 * 2 ^ Z.pos k) as Hp2.
  { rewrite <- Z.pow_add_r by lia. f_equal. lia. }
  assert (0 < 2 ^ Z.pos k) as Hpk by (apply Z.pow_pos_nonneg; lia).
  assert (2 ^ 23 ≤ shr_m mrs < 2 ^ 24) as Hm1b.
  { rewrite Hm1. split.
    - apply Z.div_le_lower_bound; lia.
    - apply Z.div_lt_upper_bound; lia. }
  assert (shr_m mrs * 2 ^ Z.pos k ≤ Z.pos p) as Hm1p.
  { rewrite Hm1, Z.mul_comm. apply Z.mul_div_le. done. }
  pose proof (round_nearest_even_bounds (shr_m mrs) (loc_of_shr_record mrs))
    as Hr.
  destruct (round_nearest_even (shr_m mrs) (loc_of_shr_record mrs))
    as [|q|q] eqn:Hq; [lia| |lia].
  cbn [Zdigits2].
  destruct (decide (Z.pos q < 2 ^ 24)) as [Hlt|Hge].
  - assert (Z.pos (digits2_pos q) = 24) as Hdq
      by (apply digits2_pos_eq; change (24 - 1) with 23; lia).
    rewrite Hdq.
    replace (Z.max (24 + (0 + Z.pos k) - 24) (3 - 128 - 24) - (0 + Z.pos k))
      with 0 by lia.
    cbn [shr shr_m].
    destruct (Z.leb_spec (0 + Z.pos k) (128 - 24)); [|lia].
    exists q, (0 + Z.pos k). split; [done|]. split; [done|]. split; [lia|].
    rewrite Z.add_0_l. nia.
  - assert (q = 16777216%positive) as -> by lia.
    change (Z.pos (digits2_pos 16777216)) with 25.
    replace (Z.max (25 + (0 + Z.pos k) - 24) (3 - 128 - 24) - (0 + Z.pos k))
      with 1 by lia.
    cbn [shr shr_m SpecFloat.iter_pos shr_1].
    destruct (Z.leb_spec (0 + Z.pos k + 1) (128 - 24)); [|lia].
    exists 8388608%positive, (0 + Z.pos k + 1).
    split; [done|]. split; [done|]. split; [lia|].
    rewrite Z.add_0_l, Z.pow_add_r by lia. change (2 ^ 1) with 2. nia.
Qed.

(** Whatever the rounding, [midval] stays inside the window as long as the
    window size fits an [int]. *)
Lemma selects_in_window_int (h : Z) : 1 ≤ h < 2 ^ 30 → selects_in_window h.
Proof.
  intros Hh. unfold selects_in_window.
  destruct (decide (h < 2 ^ 23)) as [Hs|Hb].
  { exists (h - 1). split; [apply midval_exact|]; lia. }
  unfold midval.
  destruct (2 * h + 1) as [|p|p] eqn:Hp; [lia| |lia].
  destruct (of_Z_pos_rounded p ltac:(lia)) as (m & e & -> & Hd & He & Hm).
  rewrite fmul_half_exact by (done || lia).
  cbn [to_int mbind option_bind cond_Zopp].
  destruct (Z.leb_spec 0 (e - 1)); [|lia].
  eexists. split; [done|].
  assert (0 < 2 ^ (e - 1)) by (apply Z.pow_pos_nonneg; lia).
  assert (2 ^ e = 2 * 2 ^ (e - 1)) as He'.
  { rewrite <- Z.pow_succ_r by lia. f_equal. lia. }
  nia.
Qed.

(** With half-size 0 the selected position is [-1]; with a negative
    half-size the window is empty. *)
Lemma midval_one : midval (2 * 0 + 1) = Some (-1).
Proof. vm_compute. reflexivity. Qed.

Lemma nonpos_outside (h : Z) : h ≤ 0 → ¬ selects_in_window h.
Proof.
  intros Hh (m & Hm & Hr). destruct (decide (h = 0)) as [->|]; [|lia].
  rewrite midval_one in Hm. simplify_eq. lia.
Qed.

Lemma selects_in_window_pos (h : Z) : selects_in_window h → 1 ≤ h.
Proof.
  intros Hs. destruct (decide (1 ≤ h)) as [|Hn]; [done|].
  destruct (nonpos_outside h); [lia|done].
Qed.

Lemma selects_in_window_dec (h : Z) :
  selects_in_window h ∨ ¬ selects_in_window h.
Proof.
  unfold selects_in_window.
  destruct (midval (2 * h + 1)) as [m|]; [|right; by intros (? & ? & ?)].
  destruct (decide (0 ≤ m < 2 * h + 1)) as [Hr|Hr]; [left; eauto|].
  right. intros (m' & Hm & ?). simplify_eq. done.
Qed.

(** ** Loads, stores and loops *)

Lemma load_nat {A} (buf : list A) (n : nat) : load buf (Z.of_nat n) = buf !! n.
Proof.
  unfold load. destruct (Z.leb_spec 0 (Z.of_nat n)); [|lia].
  by rewrite Nat2Z.id.
Qed.

Lemma load_neg {A} (buf : list A) (p : Z) : p < 0 → load buf p = None.
Proof. unfold load. intros. destruct (Z.leb_spec 0 p); [lia|done]. Qed.

Lemma load_ge {A} (buf : list A) (p : Z) :
  Z.of_nat (length buf) ≤ p → load buf p = None.
Proof.
  unfold load. intros. destruct (Z.leb_spec 0 p); [|done].
  apply lookup_ge_None. lia.
Qed.

Lemma load_is_Some {A} (buf : list A) (p : Z) :
  is_Some (load buf p) ↔ 0 ≤ p < Z.of_nat (length buf).
Proof.
  unfold load. destruct (Z.leb_spec 0 p).
  - rewrite lookup_lt_is_Some. lia.
  - split; [intros [? ?]; done | lia].
Qed.

Lemma load_replicate {A} (n : nat) (x : A) (p : Z) :
  0 ≤ p < Z.of_nat n → load (replicate n x) p = Some x.
Proof.
  intros. unfold load. destruct (Z.leb_spec 0 p); [|lia].
  apply lookup_replicate_2. lia.
Qed.

Lemma store_in {A} (buf : list A) (p : Z) (v : A) :
  0 ≤ p < Z.of_nat (length buf) →
  store buf p v = Some (<[Z.to_nat p := v]> buf).
Proof.
  intros. unfold store.
  destruct (Z.leb_spec 0 p); [|lia].
  destruct (Z.ltb_spec p (Z.of_nat (length buf))); [done|lia].
Qed.

Lemma store_nat {A} (buf : list A) (n : nat) (v : A) :
  (n < length buf)%nat → store buf (Z.of_nat n) v = Some (<[n := v]> buf).
Proof. intros. rewrite store_in by lia. by rewrite Nat2Z.id. Qed.

Lemma store_out {A} (buf : list A) (p : Z) (v : A) :
  ¬ (0 ≤ p < Z.of_nat (length buf)) → store buf p v = None.
Proof.
  intros. unfold store.
  destruct (Z.leb_spec 0 p); [|done].
  destruct (Z.ltb_spec p (Z.of_nat (length buf))); [lia|done].
Qed.

Lemma load_insert_eq {A} (buf : list A) (p : Z) (v : A) :
  0 ≤ p < Z.of_nat (length buf) →
  load (<[Z.to_nat p := v]> buf) p = Some v.
Proof.
  intros. unfold load. destruct (Z.leb_spec 0 p); [|lia].
  apply list_lookup_insert_eq. lia.
Qed.

Lemma load_insert_ne {A} (buf : list A) (p q : Z) (v : A) :
  0 ≤ p → p ≠ q → load (<[Z.to_nat p := v]> buf) q = load buf q.
Proof.
  intros. unfold load. destruct (Z.leb_spec 0 q); [|done].
  apply list_lookup_insert_ne. lia.
Qed.

Lemma for_each_app {X S} (xs ys : list X) (body : X → S → option S) (s : S) :
  for_each (xs ++ ys) body s = s' ← for_each xs body s; for_each ys body s'.
Proof.
  revert s. induction xs as [|x xs IH]; intros s; simpl; [done|].
  destruct (body x s); simpl; [apply IH | done].
Qed.

Lemma for_each_ext {X S} (xs : list X) (f g : X → S → option S) (s : S) :
  (∀ x s, x ∈ xs → f x s = g x s) → for_each xs f s = for_each xs g s.
Proof.
  revert s. induction xs as [|x xs IH]; intros s Hfg; simpl; [done|].
  rewrite Hfg by left. destruct (g x s); [|done].
  apply IH. intros. apply Hfg. by right.
Qed.

Lemma for_each_bind {X Y S} (xs : list X) (g : X → list Y)
    (body : Y → S → option S) (s : S) :
  for_each (xs ≫= g) body s = for_each xs (λ x s, for_each (g x) body s) s.
Proof.
  revert s. induction xs as [|x xs IH]; intros s; simpl; [done|].
  rewrite for_each_app. destruct (for_each (g x) body s); simpl; [apply IH|done].
Qed.

(** ** The bubble sort *)

Section SortingFacts.
Context {A : Type} (gt : A → A → bool).

Lemma compare_swap_app (pre : list A) (a b : A) (t : list A) :
  compare_swap gt (Z.of_nat (length pre)) (pre ++ a :: b :: t)
  = Some (pre ++ (if gt a b then b :: a :: t else a :: b :: t)).
Proof.
  unfold compare_swap, swap.
  replace (Z.of_nat (length pre) + 1) with (Z.of_nat (S (length pre))) by lia.
  rewrite !load_nat.
  rewrite (list_lookup_middle pre (b :: t) a (length pre)) by done. simpl.
  assert ((pre ++ a :: b :: t) !! S (length pre) = Some b) as ->.
  { rewrite (cons_middle a pre (b :: t)), app_assoc.
    apply list_lookup_middle. rewrite length_app. simpl. lia. }
  simpl. destruct (gt a b); [|done].
  rewrite store_nat by (rewrite length_app; simpl; lia). simpl.
  rewrite insert_app_r_alt by lia. rewrite Nat.sub_diag. simpl.
  rewrite store_nat by (rewrite length_app; simpl; lia).
  rewrite insert_app_r_alt by lia.
  replace (S (length pre) - length pre)%nat with 1%nat by lia. done.
Qed.

(** The inner loop is [bubble]. *)
Lemma inner_loop_bubble (n : nat) (pre l : list A) :
  (n = 0 ∨ n < length l)%nat →
  for_each (seqZ (Z.of_nat (length pre)) (Z.of_nat n)) (compare_swap gt)
    (pre ++ l)
  = Some (pre ++ bubble gt n l).
Proof.
  revert pre l. induction n as [|n IH]; intros pre l Hn.
  - rewrite seqZ_nil by lia. simpl. by destruct l.
  - destruct Hn as [|Hn]; [lia|].
    destruct l as [|a [|b t]]; simpl in Hn; [lia|lia|].
    rewrite seqZ_cons by lia. simpl for_each.
    rewrite compare_swap_app.
    replace (Z.pred (Z.of_nat (S n))) with (Z.of_nat n) by lia.
    simpl bubble.
    destruct (gt a b).
    + rewrite (cons_middle b pre (a :: t)), app_assoc.
      replace (Z.succ (Z.of_nat (length pre)))
        with (Z.of_nat (length (pre ++ [b])))
        by (rewrite length_app; simpl; lia).
      rewrite IH by (simpl; lia).
      by rewrite <- app_assoc.
    + rewrite (cons_middle a pre (b :: t)), app_assoc.
      replace (Z.succ (Z.of_nat (length pre)))
        with (Z.of_nat (length (pre ++ [a])))
        by (rewrite length_app; simpl; lia).
      rewrite IH by (simpl; lia).
      by rewrite <- app_assoc.
Qed.

Lemma bubble_length (n : nat) (l : list A) :
  length (bubble gt n l) = length l.
Proof.
  revert l. induction n as [|n IH]; intros [|a [|b t]]; simpl; try done.
  destruct (gt a b); simpl; by rewrite IH.
Qed.

Lemma bubble_perm (n : nat) (l : list A) : bubble gt n l ≡ₚ l.
Proof.
  revert l. induction n as [|n IH]; intros [|a [|b t]]; simpl; try done.
  destruct (gt a b).
  - rewrite IH. apply Permutation_swap.
  - by rewrite IH.
Qed.

Lemma bubble_passes_length (n : nat) (l : list A) :
  length (bubble_passes gt n l) = length l.
Proof.
  revert l. induction n as [|n IH]; intros l; cbn [bubble_passes]; [done|].
  by rewrite IH, bubble_length.
Qed.

Lemma bubble_passes_perm (n : nat) (l : list A) : bubble_passes gt n l ≡ₚ l.
Proof.
  revert l. induction n as [|n IH]; intros l; cbn [bubble_passes]; [done|].
  by rewrite IH, bubble_perm.
Qed.

Lemma sort_window_length (l : list A) :
  length (sort_window gt l) = length l.
Proof. apply bubble_passes_length. Qed.

Lemma sort_window_perm (l : list A) : sort_window gt l ≡ₚ l.
Proof. apply bubble_passes_perm. Qed.

Lemma outer_loop_passes (counter : Z) (m : nat) (x : Z) (v : list A) :
  0 ≤ x →
  Z.of_nat (length v) = counter →
  counter = x + Z.of_nat m + 1 →
  for_each (seqZ x (Z.of_nat m))
    (λ x v, for_range 0 (counter - x - 1) (compare_swap gt) v) v
  = Some (bubble_passes gt m v).
Proof.
  revert x v. induction m as [|m IH]; intros x v Hx Hlen Hc.
  - by rewrite seqZ_nil by lia.
  - rewrite seqZ_cons by lia. simpl for_each.
    assert (for_range 0 (counter - x - 1) (compare_swap gt) v
            = Some (bubble gt (S m) v)) as ->.
    { unfold for_range.
      replace (counter - x - 1 - 0) with (Z.of_nat (S m)) by lia.
      apply (inner_loop_bubble (S m) [] v). lia. }
    replace (Z.pred (Z.of_nat (S m))) with (Z.of_nat m) by lia.
    cbn [bubble_passes].
    apply IH; [lia| |lia].
    rewrite bubble_length. lia.
Qed.

(** The two nested loops sort in place and never leave the window. *)
Lemma bubble_sort_sort_window (v : list A) :
  bubble_sort gt v (Z.of_nat (length v)) = Some (sort_window gt v).
Proof.
  unfold bubble_sort, sort_window, for_range.
  destruct (decide (length v = 0)%nat) as [H0|H0].
  - destruct v; [|done]. by rewrite seqZ_nil by (simpl; lia).
  - replace (Z.of_nat (length v) - 1 - 0) with (Z.of_nat (length v - 1))
      by lia.
    apply outer_loop_passes; lia.
Qed.

Lemma bubble_prefix (n : nat) (P Q : list A) :
  (n < length P)%nat → bubble gt n (P ++ Q) = bubble gt n P ++ Q.
Proof.
  revert P. induction n as [|n IH]; intros P Hn.
  - simpl. by destruct P, Q.
  - destruct P as [|a [|b t]]; simpl in Hn; [lia|lia|].
    simpl. destruct (gt a b); simpl; f_equal.
    + apply (IH (a :: t)). simpl. lia.
    + apply (IH (b :: t)). simpl. lia.
Qed.

(** A window without repetition of order: every sample compares equal to
    itself, hence nothing moves. *)
Lemma bubble_replicate (n m : nat) (c : A) :
  gt c c = false → bubble gt n (replicate m c) = replicate m c.
Proof.
  intros Hc. revert m. induction n as [|n IH]; intros [|[|m]]; simpl; try done.
  rewrite Hc. f_equal. apply (IH (S m)).
Qed.

Lemma sort_window_replicate (m : nat) (c : A) :
  gt c c = false → sort_window gt (replicate m c) = replicate m c.
Proof.
  intros Hc. unfold sort_window. generalize (length (replicate m c) - 1)%nat.
  intros n. induction n as [|n IH]; cbn [bubble_passes]; [done|].
  by rewrite bubble_replicate.
Qed.

Section Ordered.
Context (le : A → A → Prop) (ok : A → Prop).
Hypothesis le_of_not_gt : ∀ a b, ok a → ok b → gt a b = false → le a b.
Hypothesis le_of_gt : ∀ a b, ok a → ok b → gt a b = true → le b a.
Hypothesis le_trans :
  ∀ a b c, ok a → ok b → ok c → le a b → le b c → le a c.

Lemma le_refl_ok (a : A) : ok a → le a a.
Proof. intros. destruct (gt a a) eqn:E; eauto. Qed.

(** One pass carries a largest sample to the end. *)
Lemma bubble_last_elem (n : nat) (l l' : list A) (m : A) :
  bubble gt n l = l' ++ [m] → m ∈ l.
Proof.
  intros Hl. rewrite <- (bubble_perm n l), Hl.
  apply elem_of_app. right. by apply list_elem_of_singleton.
Qed.

Lemma bubble_max (n : nat) (l : list A) :
  length l = S n → Forall ok l →
  ∃ l' m, bubble gt n l = l' ++ [m] ∧ ∀ x, x ∈ l → le x m.
Proof.
  revert l. induction n as [|n IH]; intros l Hlen Hok.
  - destruct l as [|a [|]]; simplify_eq/=.
    exists [], a. split; [done|].
    intros x ->%list_elem_of_singleton.
    apply le_refl_ok. by inversion Hok.
  - destruct l as [|a [|b t]]; simpl in Hlen; [lia|lia|].
    cbn [bubble].
    inversion Hok as [|? ? Ha Hok']; subst.
    inversion Hok' as [|? ? Hb Ht]; subst.
    destruct (gt a b) eqn:E.
    + destruct (IH (a :: t)) as (l' & m & Hl & Hm);
        [simpl; lia|by constructor|].
      rewrite Hl. exists (b :: l'), m. split; [done|].
      assert (ok m) as Hokm.
      { apply bubble_last_elem in Hl.
        eapply Forall_forall in Hl; [done|]. by constructor. }
      assert (le a m) as Ham by (apply Hm; left).
      intros x Hx.
      apply elem_of_cons in Hx as [->|Hx]; [done|].
      apply elem_of_cons in Hx as [->|Hx].
      * eapply (le_trans b a m); eauto.
      * apply Hm. by right.
    + destruct (IH (b :: t)) as (l' & m & Hl & Hm);
        [simpl; lia|by constructor|].
      rewrite Hl. exists (a :: l'), m. split; [done|].
      assert (ok m) as Hokm.
      { apply bubble_last_elem in Hl.
        eapply Forall_forall in Hl; [done|]. by constructor. }
      assert (le b m) as Hbm by (apply Hm; left).
      intros x Hx.
      apply elem_of_cons in Hx as [->|Hx]; [|by apply Hm].
      eapply (le_trans a b m); eauto.
Qed.

Lemma bubble_passes_sorted (n : nat) (P Q : list A) :
  length P = S n → Forall ok P →
  StronglySorted le Q →
  (∀ p q, p ∈ P → q ∈ Q → le p q) →
  StronglySorted le (bubble_passes gt n (P ++ Q)).
Proof.
  revert P Q. induction n as [|n IH]; intros P Q Hlen Hok HQ HPQ.
  - destruct P as [|p [|]]; simplify_eq/=.
    apply StronglySorted_cons. split; [|done].
    apply Forall_forall. intros q Hq. apply HPQ; [left|done].
  - cbn [bubble_passes]. rewrite bubble_prefix by lia.
    destruct (bubble_max (S n) P) as (l' & m & Hl & Hm); [done..|].
    assert (l' ++ [m] ≡ₚ P) as Hperm by (rewrite <- Hl; apply bubble_perm).
    assert (∀ p, p ∈ l' → p ∈ P) as Hsub.
    { intros p Hp. rewrite <- Hperm. apply elem_of_app. by left. }
    rewrite Hl, <- app_assoc. simpl.
    apply IH.
    + apply (f_equal length) in Hl.
      rewrite bubble_length, length_app in Hl. simpl in Hl. lia.
    + rewrite <- Hperm in Hok. by apply Forall_app in Hok as [? _].
    + apply StronglySorted_cons. split; [|done].
      apply Forall_forall. intros q Hq. apply HPQ; [|done].
      by eapply bubble_last_elem.
    + intros p q Hp Hq.
      apply elem_of_cons in Hq as [->|Hq]; [by apply Hm, Hsub|].
      by apply HPQ; [apply Hsub|].
Qed.

(** On totally ordered samples the window comes out ascending. *)
Lemma sort_window_sorted (l : list A) :
  Forall ok l → StronglySorted le (sort_window gt l).
Proof.
  intros Hok. unfold sort_window.
  destruct l as [|a l]; [constructor|].
  rewrite <- (app_nil_r (a :: l)) at 2.
  apply bubble_passes_sorted; [simpl; lia|done|constructor|].
  intros p q _ Hq. by apply elem_of_nil in Hq.
Qed.
End Ordered.
End SortingFacts.

(** ** Order facts on binary32 *)

Lemma cmp_cont_refl (m : positive) : Pos.compare_cont Eq m m = Eq.
Proof. apply Pos.compare_refl. Qed.

Lemma SFcompare_refl (a : float) :
  SFcompare a a = if is_nan a then None else Some Eq.
Proof.
  destruct a as [[]|[]| |[] m e]; simpl; try done;
    by rewrite Z.compare_refl, cmp_cont_refl.
Qed.

(** [c > c] is false for every float, NaN included. *)
Lemma fgt_irrefl (c : float) : fgt c c = false.
Proof.
  unfold fgt, SFltb. rewrite SFcompare_refl. by destruct (is_nan c).
Qed.

Lemma SFcompare_antisym (a b : float) :
  SFcompare b a = CompOpp <$> SFcompare a b.
Proof.
  destruct a as [[]|[]| |[] m1 e1], b as [[]|[]| |[] m2 e2]; simpl; try done;
    rewrite (Z.compare_antisym e1 e2);
    change (Pos.compare_cont Eq m2 m1) with (Pos.compare m2 m1);
    change (Pos.compare_cont Eq m1 m2) with (Pos.compare m1 m2);
    rewrite (Pos.compare_antisym m1 m2);
    destruct (e1 ?= e2); simpl; try done;
    by destruct (m1 ?= m2)%positive.
Qed.

Lemma SFcompare_is_Some (a b : float) :
  is_nan a = false → is_nan b = false → is_Some (SFcompare a b).
Proof.
  destruct a as [[]|[]| |[] m1 e1], b as [[]|[]| |[] m2 e2]; simpl;
    intros; try done; eauto.
Qed.

Lemma fle_of_not_fgt (a b : float) :
  is_nan a = false → is_nan b = false → fgt a b = false → fle a b.
Proof.
  intros Ha Hb. unfold fgt, fle, SFltb, SFleb.
  rewrite (SFcompare_antisym a b).
  destruct (SFcompare_is_Some a b Ha Hb) as [c ->]. by destruct c.
Qed.

Lemma fle_of_fgt (a b : float) : fgt a b = true → fle b a.
Proof.
  unfold fgt, fle, SFltb, SFleb. by destruct (SFcompare b a) as [[]|].
Qed.

Lemma fle_trans (a b c : float) : fle a b → fle b c → fle a c.
Proof.
  unfold fle, SFleb.
  destruct a as [[]|[]| |[] m1 e1], b as [[]|[]| |[] m2 e2],
    c as [[]|[]| |[] m3 e3]; simpl; try done;
    change (Pos.compare_cont Eq m1 m2) with (Pos.compare m1 m2);
    change (Pos.compare_cont Eq m2 m3) with (Pos.compare m2 m3);
    change (Pos.compare_cont Eq m1 m3) with (Pos.compare m1 m3);
    destruct (Z.compare_spec e1 e2), (Z.compare_spec e2 e3),
      (Z.compare_spec e1 e3); try done; try lia;
    destruct (Pos.compare_spec m1 m2), (Pos.compare_spec m2 m3),
      (Pos.compare_spec m1 m3); simpl; try done; lia.
Qed.

(** With no NaN among the samples, the sorted window is ascending. *)
Lemma sort_window_ascending (w : list float) :
  Forall (λ x, is_nan x = false) w → StronglySorted fle (sort_window fgt w).
Proof.
  apply (sort_window_sorted fgt fle (λ x, is_nan x = false)).
  - apply fle_of_not_fgt.
  - intros a b _ _. apply fle_of_fgt.
  - intros a b c _ _ _. apply fle_trans.
Qed.

(** ** Gathering, sorting, selecting *)

Lemma gather_loop (src : list float) (axisLen pos index : Z) (nb : Z → Z)
    (n : nat) (lo : Z) (filled : list float) :
  for_each (seqZ lo (Z.of_nat n))
    (λ k '(vv, counter),
       let p1 := pos + k in
       v ← (if (0 <=? p1) && (p1 <? axisLen)
            then load src (nb p1) else load src index);
       vv' ← store vv counter v;
       Some (vv', counter + 1))
    (filled ++ replicate n fzero, Z.of_nat (length filled))
  = w ← mapM (tap src axisLen pos index nb) (seqZ lo (Z.of_nat n));
    Some (filled ++ w, Z.of_nat (length filled) + Z.of_nat n).
Proof.
  revert lo filled. induction n as [|n IH]; intros lo filled.
  - rewrite seqZ_nil by lia. simpl. by rewrite Z.add_0_r.
  - rewrite seqZ_cons by lia.
    replace (Z.pred (Z.of_nat (S n))) with (Z.of_nat n) by lia.
    cbn [for_each mapM]. fold (tap src axisLen pos index nb lo).
    destruct (tap src axisLen pos index nb lo) as [v|]; [|done].
    cbn [mbind option_bind].
    rewrite store_nat by (rewrite length_app; simpl; lia).
    cbn [mbind option_bind].
    rewrite insert_app_r_alt by lia. rewrite Nat.sub_diag. cbn [replicate].
    change (<[0%nat:=v]> (fzero :: replicate n fzero))
      with ([v] ++ replicate n fzero).
    rewrite app_assoc.
    replace (Z.of_nat (length filled) + 1)
      with (Z.of_nat (length (filled ++ [v])))
      by (rewrite length_app; simpl; lia).
    rewrite IH.
    destruct (mapM _ (seqZ (Z.succ lo) (Z.of_nat n))) as [w|]; [|done].
    simpl. rewrite <- app_assoc, length_app. simpl. do 2 f_equal. lia.
Qed.

Lemma gather_window (src : list float) (h axisLen pos index : Z)
    (nb : Z → Z) :
  0 ≤ h →
  gather src h axisLen pos index nb (calloc (2 * h + 1))
  = w ← window src h axisLen pos index nb; Some (w, 2 * h + 1).
Proof.
  intros Hh. unfold gather, window, for_range, calloc.
  replace (h + 1 - - h) with (2 * h + 1) by lia.
  pose proof (gather_loop src axisLen pos index nb (Z.to_nat (2 * h + 1))
                (- h) []) as Hg.
  rewrite Z2Nat.id in Hg by lia.
  cbn [app length] in Hg. change (Z.of_nat 0) with 0 in Hg.
  rewrite Hg. by destruct (mapM _ _).
Qed.

Lemma window_length (src : list float) (h axisLen pos index : Z) (nb : Z → Z)
    (w : list float) :
  0 ≤ h → window src h axisLen pos index nb = Some w →
  Z.of_nat (length w) = 2 * h + 1.
Proof.
  intros Hh Hw. apply length_mapM in Hw. rewrite <- Hw, length_seqZ. lia.
Qed.

(** The value every filter stores: the sample at position [midval] of the
    sorted window. *)
Lemma axis_median_sorted_window (src : list float) (h axisLen pos index : Z)
    (nb : Z → Z) :
  0 ≤ h →
  axis_median src h (2 * h + 1) axisLen pos index nb
  = mid ← midval (2 * h + 1);
    w ← window src h axisLen pos index nb; load (sort_window fgt w) mid.
Proof.
  intros Hh. unfold axis_median.
  destruct (midval (2 * h + 1)) as [mid|]; [|done].
  cbn [mbind option_bind]. rewrite gather_window by done.
  destruct (window src h axisLen pos index nb) as [w|] eqn:Hw; [|done].
  cbn [mbind option_bind].
  rewrite <- (window_length _ _ _ _ _ _ _ Hh Hw).
  by rewrite bubble_sort_sort_window.
Qed.

(** Below 2^24 samples that position is [h - 1]. *)
Lemma axis_median_sorted_window_exact (src : list float)
    (h axisLen pos index : Z) (nb : Z → Z) :
  0 ≤ h < 2 ^ 23 →
  axis_median src h (2 * h + 1) axisLen pos index nb
  = w ← window src h axisLen pos index nb; load (sort_window fgt w) (h - 1).
Proof.
  intros Hh. rewrite axis_median_sorted_window by lia.
  by rewrite midval_exact.
Qed.

(** For 16777219 samples it is the half-size itself. *)
Lemma axis_median_beyond_range (src : list float) (axisLen pos index : Z)
    (nb : Z → Z) :
  axis_median src 8388609 (2 * 8388609 + 1) axisLen pos index nb
  = w ← window src 8388609 axisLen pos index nb;
    load (sort_window fgt w) 8388609.
Proof.
  rewrite axis_median_sorted_window by lia.
  by rewrite midval_beyond_range.
Qed.

(** ** A loop that stores one value per visited cell *)

Lemma for_each_store_spec {X} (cs : list X) (idx : X → Z)
    (val : X → list float → option float) (V : X → float)
    (dst : list float) :
  NoDup (idx <$> cs) →
  (∀ c, c ∈ cs → 0 ≤ idx c < Z.of_nat (length dst)) →
  (∀ c d, c ∈ cs → length d = length dst →
          load d (idx c) = load dst (idx c) → val c d = Some (V c)) →
  ∃ d', for_each cs (λ c d, v ← val c d; store d (idx c) v) dst = Some d'
        ∧ length d' = length dst
        ∧ (∀ c, c ∈ cs → load d' (idx c) = Some (V c))
        ∧ (∀ p, p ∉ idx <$> cs → load d' p = load dst p).
Proof.
  revert dst. induction cs as [|c cs IH]; intros dst Hnd Hin Hval.
  - exists dst. split; [done|]. split; [done|]. split; [|done].
    intros c Hc. by apply elem_of_nil in Hc.
  - rewrite fmap_cons in Hnd. apply NoDup_cons in Hnd as [Hc Hnd].
    assert (0 ≤ idx c < Z.of_nat (length dst)) as Hb by (apply Hin; left).
    cbn [for_each]. rewrite (Hval c dst) by (done || left). cbn [mbind option_bind].
    rewrite store_in by done.
    set (d1 := <[Z.to_nat (idx c):=V c]> dst).
    assert (length d1 = length dst) as Hlen1 by apply length_insert.
    assert (∀ q, q ≠ idx c → load d1 q = load dst q) as Hd1.
    { intros q Hq. apply load_insert_ne; [lia|done]. }
    destruct (IH d1) as (d' & Hrun & Hlen & Hset & Hkeep); [done|..].
    + intros c' Hc'. rewrite Hlen1. apply Hin. by right.
    + intros c' d Hc' Hd Hld. apply Hval; [by right|congruence|].
      rewrite Hld. apply Hd1. intros Heq. apply Hc. rewrite <- Heq.
      by apply list_elem_of_fmap_2.
    + exists d'. rewrite Hrun. split; [done|]. split; [congruence|]. split.
      * intros c' Hc'. apply elem_of_cons in Hc' as [->|Hc']; [|by apply Hset].
        rewrite Hkeep by done. by apply load_insert_eq.
      * intros p Hp. apply not_elem_of_cons in Hp as [Hp1 Hp2].
        rewrite Hkeep by done. by apply Hd1.
Qed.

(** ** Cells and flat indices *)

Lemma elem_of_cells2D (A D i j : Z) :
  (i, j) ∈ cells2D A D ↔ 0 ≤ i < A ∧ 0 ≤ j < D.
Proof.
  unfold cells2D. rewrite list_elem_of_bind. split.
  - intros (i' & Hj & Hi). apply list_elem_of_bind in Hj as (j' & Hc & Hj).
    apply list_elem_of_singleton in Hc. simplify_eq.
    apply elem_of_seqZ in Hi, Hj. lia.
  - intros [Hi Hj]. exists i. split; [|apply elem_of_seqZ; lia].
    apply list_elem_of_bind. exists j.
    split; [by apply list_elem_of_singleton|apply elem_of_seqZ; lia].
Qed.

Lemma elem_of_cells3D (A D S k i j : Z) :
  (k, i, j) ∈ cells3D A D S ↔ 0 ≤ k < S ∧ 0 ≤ i < A ∧ 0 ≤ j < D.
Proof.
  unfold cells3D. rewrite list_elem_of_bind. split.
  - intros (k' & Hi & Hk). apply list_elem_of_bind in Hi as (i' & Hj & Hi).
    apply list_elem_of_bind in Hj as (j' & Hc & Hj).
    apply list_elem_of_singleton in Hc. simplify_eq.
    apply elem_of_seqZ in Hk, Hi, Hj. lia.
  - intros (Hk & Hi & Hj). exists k. split; [|apply elem_of_seqZ; lia].
    apply list_elem_of_bind. exists i. split; [|apply elem_of_seqZ; lia].
    apply list_elem_of_bind. exists j.
    split; [by apply list_elem_of_singleton|apply elem_of_seqZ; lia].
Qed.

Lemma NoDup_cells2D (A D : Z) : NoDup (cells2D A D).
Proof.
  unfold cells2D. apply NoDup_bind; [| |apply NoDup_seqZ].
  - intros i1 i2 c _ _ H1 H2.
    apply list_elem_of_bind in H1 as (j1 & H1 & _).
    apply list_elem_of_bind in H2 as (j2 & H2 & _).
    apply list_elem_of_singleton in H1, H2. by simplify_eq.
  - intros i _. apply NoDup_bind; [| |apply NoDup_seqZ].
    + intros j1 j2 c _ _ H1 H2.
      apply list_elem_of_singleton in H1, H2. by simplify_eq.
    + intros j _. apply NoDup_singleton.
Qed.

Lemma NoDup_cells3D (A D S : Z) : NoDup (cells3D A D S).
Proof.
  unfold cells3D. apply NoDup_bind; [| |apply NoDup_seqZ].
  - intros k1 k2 c _ _ H1 H2.
    apply list_elem_of_bind in H1 as (i1 & H1 & _).
    apply list_elem_of_bind in H1 as (j1 & H1 & _).
    apply list_elem_of_bind in H2 as (i2 & H2 & _).
    apply list_elem_of_bind in H2 as (j2 & H2 & _).
    apply list_elem_of_singleton in H1, H2. by simplify_eq.
  - intros k _. apply NoDup_bind; [| |apply NoDup_seqZ].
    + intros i1 i2 c _ _ H1 H2.
      apply list_elem_of_bind in H1 as (j1 & H1 & _).
      apply list_elem_of_bind in H2 as (j2 & H2 & _).
      apply list_elem_of_singleton in H1, H2. by simplify_eq.
    + intros i _. apply NoDup_bind; [| |apply NoDup_seqZ].
      * intros j1 j2 c _ _ H1 H2.
        apply list_elem_of_singleton in H1, H2. by simplify_eq.
      * intros j _. apply NoDup_singleton.
Qed.

Lemma flat_index_inj (b q r q' r' : Z) :
  0 ≤ r < b → 0 ≤ r' < b → q * b + r = q' * b + r' → q = q' ∧ r = r'.
Proof. intros. assert (q = q') by nia. subst. lia. Qed.

Lemma index2D_bound (A D i j : Z) :
  0 ≤ i < A → 0 ≤ j < D → 0 ≤ i * D + j < A * D.
Proof. intros. nia. Qed.

Lemma index3D_bound (A D S k i j : Z) :
  0 ≤ k < S → 0 ≤ i < A → 0 ≤ j < D →
  0 ≤ D * A * k + i * D + j < A * D * S.
Proof.
  intros. pose proof (index2D_bound A D i j).
  assert (0 ≤ A * D * k ∧ A * D * (k + 1) ≤ A * D * S) by nia. lia.
Qed.

Lemma NoDup_index2D (A D : Z) : NoDup (index2D D <$> cells2D A D).
Proof.
  apply NoDup_fmap_2_strong; [|apply NoDup_cells2D].
  intros [i j] [i' j'] H1%elem_of_cells2D H2%elem_of_cells2D Heq.
  simpl in Heq. apply flat_index_inj in Heq as [-> ->]; [done|lia|lia].
Qed.

Lemma NoDup_index3D (A D S : Z) : NoDup (index3D A D <$> cells3D A D S).
Proof.
  apply NoDup_fmap_2_strong; [|apply NoDup_cells3D].
  intros [[k i] j] [[k' i'] j'] H1%elem_of_cells3D H2%elem_of_cells3D Heq.
  simpl in Heq.
  replace (D * A * k + i * D + j) with ((k * A + i) * D + j) in Heq by lia.
  replace (D * A * k' + i' * D + j') with ((k' * A + i') * D + j') in Heq
    by lia.
  apply flat_index_inj in Heq as [Heq ->]; [|lia|lia].
  apply flat_index_inj in Heq as [-> ->]; [done|lia|lia].
Qed.

(** ** A filter pass writes every cell once *)

Lemma pass2D_cells (f : Z → Z → list float → option (list float))
    (A D : Z) (dst : list float) :
  pass2D f A D dst = for_each (cells2D A D) (λ '(i, j) d, f j i d) dst.
Proof.
  unfold pass2D, cells2D, for_range. rewrite !Z.sub_0_r.
  rewrite for_each_bind. apply for_each_ext. intros i d _.
  rewrite for_each_bind. apply for_each_ext. intros j d' _. simpl.
  by destruct (f j i d').
Qed.

Lemma pass3D_cells (f : Z → Z → Z → list float → option (list float))
    (A D S : Z) (dst : list float) :
  pass3D f A D S dst
  = for_each (cells3D A D S) (λ '(k, i, j) d, f j i k d) dst.
Proof.
  unfold pass3D, cells3D, for_range. rewrite !Z.sub_0_r.
  rewrite for_each_bind. apply for_each_ext. intros k d _.
  rewrite for_each_bind. apply for_each_ext. intros i d' _.
  rewrite for_each_bind. apply for_each_ext. intros j d'' _. simpl.
  by destruct (f j i k d'').
Qed.

Lemma pass2D_spec (med : Z → Z → option float) (A D : Z)
    (dst : list float) :
  Z.of_nat (length dst) = A * D →
  (∀ i j, 0 ≤ i < A → 0 ≤ j < D → is_Some (med j i)) →
  ∃ d', pass2D (λ j i dst, v ← med j i; store dst (i * D + j) v) A D dst
        = Some d'
        ∧ length d' = length dst
        ∧ ∀ i j, 0 ≤ i < A → 0 ≤ j < D → load d' (i * D + j) = med j i.
Proof.
  intros Hlen Hmed. rewrite pass2D_cells.
  destruct (for_each_store_spec (cells2D A D) (index2D D)
              (λ '(i, j) _, med j i)
              (λ '(i, j), default fzero (med j i)) dst)
    as (d' & Hrun & Hlen' & Hset & _).
  - apply NoDup_index2D.
  - intros [i j] [? ?]%elem_of_cells2D. simpl. rewrite Hlen.
    by apply index2D_bound.
  - intros [i j] d [? ?]%elem_of_cells2D _ _.
    by destruct (Hmed i j) as [v ->].
  - exists d'. split; [|split; [done|]].
    + rewrite <- Hrun. apply for_each_ext. by intros [i j] d _.
    + intros i j Hi Hj.
      change (i * D + j) with (index2D D (i, j)).
      rewrite (Hset (i, j)) by (by apply elem_of_cells2D).
      by destruct (Hmed i j) as [v ->].
Qed.

Lemma pass3D_spec (med : Z → Z → Z → option float) (A D S : Z)
    (dst : list float) :
  Z.of_nat (length dst) = A * D * S →
  (∀ k i j, 0 ≤ k < S → 0 ≤ i < A → 0 ≤ j < D → is_Some (med j i k)) →
  ∃ d', pass3D (λ j i k dst,
                  v ← med j i k; store dst (D * A * k + i * D + j) v)
          A D S dst = Some d'
        ∧ length d' = length dst
        ∧ ∀ k i j, 0 ≤ k < S → 0 ≤ i < A → 0 ≤ j < D →
                   load d' (D * A * k + i * D + j) = med j i k.
Proof.
  intros Hlen Hmed. rewrite pass3D_cells.
  destruct (for_each_store_spec (cells3D A D S) (index3D A D)
              (λ '(k, i, j) _, med j i k)
              (λ '(k, i, j), default fzero (med j i k)) dst)
    as (d' & Hrun & Hlen' & Hset & _).
  - apply NoDup_index3D.
  - intros [[k i] j] (? & ? & ?)%elem_of_cells3D. simpl. rewrite Hlen.
    by apply index3D_bound.
  - intros [[k i] j] d (? & ? & ?)%elem_of_cells3D _ _.
    by destruct (Hmed k i j) as [v ->].
  - exists d'. split; [|split; [done|]].
    + rewrite <- Hrun. apply for_each_ext. by intros [[k i] j] d _.
    + intros k i j Hk Hi Hj.
      change (D * A * k + i * D + j) with (index3D A D (k, i, j)).
      rewrite (Hset (k, i, j)) by (by apply elem_of_cells3D).
      by destruct (Hmed k i j) as [v ->].
Qed.

(** ** The elementwise combination loops *)

Lemma for_range_empty {S} (lo hi : Z) (body : Z → S → option S) (s : S) :
  hi ≤ lo → for_range lo hi body s = Some s.
Proof. intros. unfold for_range. by rewrite seqZ_nil by lia. Qed.

Lemma pointwise_loop (n : Z) (val : Z → list float → option float)
    (V : Z → float) (w : list float) :
  n ≤ Z.of_nat (length w) →
  (∀ p d, 0 ≤ p < n → length d = length w → load d p = load w p →
          val p d = Some (V p)) →
  ∃ w', for_range 0 n (λ i w, v ← val i w; store w i v) w = Some w'
        ∧ length w' = length w
        ∧ (∀ p, 0 ≤ p < n → load w' p = Some (V p))
        ∧ (∀ p, ¬ (0 ≤ p < n) → load w' p = load w p).
Proof.
  intros Hn Hval. unfold for_range. rewrite Z.sub_0_r.
  destruct (for_each_store_spec (seqZ 0 n) id val V w)
    as (w' & Hrun & Hlen & Hset & Hkeep).
  - rewrite list_fmap_id. apply NoDup_seqZ.
  - intros p Hp%elem_of_seqZ. unfold id. lia.
  - intros p d Hp%elem_of_seqZ. apply Hval. lia.
  - exists w'. split; [done|]. split; [done|]. split.
    + intros p Hp. apply (Hset p). apply elem_of_seqZ. lia.
    + intros p Hp. apply Hkeep. rewrite list_fmap_id, elem_of_seqZ. lia.
Qed.

Lemma load_default {A} (d : A) (buf : list A) (p : Z) :
  0 ≤ p < Z.of_nat (length buf) → load buf p = Some (default d (load buf p)).
Proof. intros H%load_is_Some. by destruct H as [v ->]. Qed.

Lemma sub_loop_spec (n : Z) (a b w : list float) :
  n ≤ Z.of_nat (length w) → n ≤ Z.of_nat (length a) →
  n ≤ Z.of_nat (length b) →
  ∃ w', sub_loop n a b w = Some w'
        ∧ length w' = length w
        ∧ (∀ p x y, 0 ≤ p < n → load a p = Some x → load b p = Some y →
                    load w' p = Some (fsub x y))
        ∧ (∀ p, ¬ (0 ≤ p < n) → load w' p = load w p).
Proof.
  intros Hw Ha Hb.
  destruct (pointwise_loop n
              (λ p _, x ← load a p; y ← load b p; Some (fsub x y))
              (λ p, fsub (default fzero (load a p))
                         (default fzero (load b p))) w)
    as (w' & Hrun & Hlen & Hset & Hkeep); [done|..].
  - intros p d Hp _ _.
    rewrite (load_default fzero a p), (load_default fzero b p) by lia. done.
  - exists w'. split; [|split; [done|split; [|done]]].
    + rewrite <- Hrun. unfold sub_loop, for_range. apply for_each_ext.
      intros p d _. destruct (load a p); [|done]. by destruct (load b p).
    + intros p x y Hp Hx Hy. rewrite Hset by done. by rewrite Hx, Hy.
Qed.

Lemma sub_loop_inplace_spec (n : Z) (a w : list float) :
  n ≤ Z.of_nat (length w) → n ≤ Z.of_nat (length a) →
  ∃ w', sub_loop_inplace n a w = Some w'
        ∧ length w' = length w
        ∧ (∀ p x y, 0 ≤ p < n → load a p = Some x → load w p = Some y →
                    load w' p = Some (fsub x y))
        ∧ (∀ p, ¬ (0 ≤ p < n) → load w' p = load w p).
Proof.
  intros Hw Ha.
  destruct (pointwise_loop n
              (λ p d, x ← load a p; y ← load d p; Some (fsub x y))
              (λ p, fsub (default fzero (load a p))
                         (default fzero (load w p))) w)
    as (w' & Hrun & Hlen & Hset & Hkeep); [done|..].
  - intros p d Hp _ ->.
    rewrite (load_default fzero a p), (load_default fzero w p) by lia. done.
  - exists w'. split; [|split; [done|split; [|done]]].
    + rewrite <- Hrun. unfold sub_loop_inplace, for_range. apply for_each_ext.
      intros p d _. destruct (load a p); [|done]. by destruct (load d p).
    + intros p x y Hp Hx Hy. rewrite Hset by done. by rewrite Hx, Hy.
Qed.

Lemma half_loop_spec (n : Z) (a b c w : list float) :
  n ≤ Z.of_nat (length w) → n ≤ Z.of_nat (length a) →
  n ≤ Z.of_nat (length b) → n ≤ Z.of_nat (length c) →
  ∃ w', half_loop n a b c w = Some w'
        ∧ length w' = length w
        ∧ (∀ p x y z, 0 ≤ p < n → load a p = Some x → load b p = Some y →
                      load c p = Some z →
                      load w' p = Some (fsub x (fmul fhalf (fadd y z))))
        ∧ (∀ p, ¬ (0 ≤ p < n) → load w' p = load w p).
Proof.
  intros Hw Ha Hb Hc.
  destruct (pointwise_loop n
              (λ p _, x ← load a p; y ← load b p; z ← load c p;
                      Some (fsub x (fmul fhalf (fadd y z))))
              (λ p, fsub (default fzero (load a p))
                      (fmul fhalf (fadd (default fzero (load b p))
                                        (default fzero (load c p))))) w)
    as (w' & Hrun & Hlen & Hset & Hkeep); [done|..].
  - intros p d Hp _ _.
    rewrite (load_default fzero a p), (load_default fzero b p),
      (load_default fzero c p) by lia. done.
  - exists w'. split; [|split; [done|split; [|done]]].
    + rewrite <- Hrun. unfold half_loop, for_range. apply for_each_ext.
      intros p d _. destruct (load a p); [|done].
      destruct (load b p); [|done]. by destruct (load c p).
    + intros p x y z Hp Hx Hy Hz. rewrite Hset by done.
      by rewrite Hx, Hy, Hz.
Qed.

Lemma half_loop_inplace_spec (n : Z) (a b w : list float) :
  n ≤ Z.of_nat (length w) → n ≤ Z.of_nat (length a) →
  n ≤ Z.of_nat (length b) →
  ∃ w', half_loop_inplace n a b w = Some w'
        ∧ length w' = length w
        ∧ (∀ p x y z, 0 ≤ p < n → load a p = Some x → load b p = Some y →
                      load w p = Some z →
                      load w' p = Some (fsub x (fmul fhalf (fadd y z))))
        ∧ (∀ p, ¬ (0 ≤ p < n) → load w' p = load w p).
Proof.
  intros Hw Ha Hb.
  destruct (pointwise_loop n
              (λ p d, x ← load a p; y ← load b p; z ← load d p;
                      Some (fsub x (fmul fhalf (fadd y z))))
              (λ p, fsub (default fzero (load a p))
                      (fmul fhalf (fadd (default fzero (load b p))
                                        (default fzero (load w p))))) w)
    as (w' & Hrun & Hlen & Hset & Hkeep); [done|..].
  - intros p d Hp _ ->.
    rewrite (load_default fzero a p), (load_default fzero b p),
      (load_default fzero w p) by lia. done.
  - exists w'. split; [|split; [done|split; [|done]]].
    + rewrite <- Hrun. unfold half_loop_inplace, for_range.
      apply for_each_ext.
      intros p d _. destruct (load a p); [|done].
      destruct (load b p); [|done]. by destruct (load d p).
    + intros p x y z Hp Hx Hy Hz. rewrite Hset by done.
      by rewrite Hx, Hy, Hz.
Qed.

(** ** When a filter's reads stay inside its buffers *)

Lemma tap_is_Some (src : list float) (axisLen pos index : Z) (nb : Z → Z)
    (t : Z) :
  (∀ p, 0 ≤ p < axisLen → 0 ≤ nb p < Z.of_nat (length src)) →
  0 ≤ index < Z.of_nat (length src) →
  is_Some (tap src axisLen pos index nb t).
Proof.
  intros Hnb Hidx. unfold tap.
  destruct (Z.leb_spec 0 (pos + t)), (Z.ltb_spec (pos + t) axisLen); simpl;
    apply load_is_Some; auto with lia.
Qed.

Lemma window_is_Some (src : list float) (h axisLen pos index : Z)
    (nb : Z → Z) :
  (∀ p, 0 ≤ p < axisLen → 0 ≤ nb p < Z.of_nat (length src)) →
  0 ≤ index < Z.of_nat (length src) →
  is_Some (window src h axisLen pos index nb).
Proof.
  intros Hnb Hidx. apply mapM_is_Some, Forall_forall.
  intros t _. by apply tap_is_Some.
Qed.

Lemma axis_median_is_Some (src : list float) (h axisLen pos index : Z)
    (nb : Z → Z) :
  selects_in_window h →
  (∀ p, 0 ≤ p < axisLen → 0 ≤ nb p < Z.of_nat (length src)) →
  0 ≤ index < Z.of_nat (length src) →
  is_Some (axis_median src h (2 * h + 1) axisLen pos index nb).
Proof.
  intros (m & Hm & Hr) Hnb Hidx.
  assert (0 ≤ h) as Hh0 by lia.
  rewrite axis_median_sorted_window, Hm by done.
  destruct (window_is_Some src h axisLen pos index nb Hnb Hidx) as [w Hw].
  rewrite Hw. cbn [mbind option_bind]. apply load_is_Some.
  rewrite sort_window_length.
  rewrite (window_length _ _ _ _ _ _ _ Hh0 Hw). lia.
Qed.

Section InRange.
Context (src : list float) (h A D S : Z).
Hypothesis Hh : selects_in_window h.

Lemma det2D_median_is_Some (j i : Z) :
  Z.of_nat (length src) = A * D → 0 ≤ i < A → 0 ≤ j < D →
  is_Some (det2D_median src h (2 * h + 1) A D j i).
Proof.
  intros Hlen Hi Hj. apply axis_median_is_Some; [done| |].
  - intros p Hp. rewrite Hlen. by apply index2D_bound.
  - rewrite Hlen. by apply index2D_bound.
Qed.

Lemma angles2D_median_is_Some (j i : Z) :
  Z.of_nat (length src) = A * D → 0 ≤ i < A → 0 ≤ j < D →
  is_Some (angles2D_median src h (2 * h + 1) A D j i).
Proof.
  intros Hlen Hi Hj. apply axis_median_is_Some; [done| |].
  - intros p Hp. rewrite Hlen. by apply index2D_bound.
  - rewrite Hlen. by apply index2D_bound.
Qed.

Lemma proj3D_median_is_Some (j i k : Z) :
  Z.of_nat (length src) = A * D * S → 0 ≤ k < S → 0 ≤ i < A → 0 ≤ j < D →
  is_Some (proj3D_median src h (2 * h + 1) A D S j i k).
Proof.
  intros Hlen Hk Hi Hj. apply axis_median_is_Some; [done| |].
  - intros p Hp. rewrite Hlen. by apply index3D_bound.
  - rewrite Hlen. by apply index3D_bound.
Qed.

Lemma det3D_median_is_Some (j i k : Z) :
  Z.of_nat (length src) = A * D * S → 0 ≤ k < S → 0 ≤ i < A → 0 ≤ j < D →
  is_Some (det3D_median src h (2 * h + 1) A D S j i k).
Proof.
  intros Hlen Hk Hi Hj. apply axis_median_is_Some; [done| |].
  - intros p Hp. rewrite Hlen. by apply index3D_bound.
  - rewrite Hlen. by apply index3D_bound.
Qed.

Lemma angles3D_median_is_Some (j i k : Z) :
  Z.of_nat (length src) = A * D * S → 0 ≤ k < S → 0 ≤ i < A → 0 ≤ j < D →
  is_Some (angles3D_median src h (2 * h + 1) A D S j i k).
Proof.
  intros Hlen Hk Hi Hj. apply axis_median_is_Some; [done| |].
  - intros p Hp. rewrite Hlen. by apply index3D_bound.
  - rewrite Hlen. by apply index3D_bound.
Qed.
End InRange.

(** ** The passes of [RingWeights_main] *)

Section Passes.
Context (residual : list float) (h A D S : Z).
Hypothesis Hh : selects_in_window h.

Lemma det2D_pass (dst : list float) :
  Z.of_nat (length residual) = A * D →
  Z.of_nat (length dst) = A * D →
  ∃ d', pass2D (λ j i dst, RingWeights_det2D residual dst h (2 * h + 1)
                             A D j i) A D dst = Some d'
        ∧ length d' = length dst
        ∧ ∀ i j, 0 ≤ i < A → 0 ≤ j < D →
            load d' (i * D + j) = det2D_median residual h (2 * h + 1) A D j i.
Proof.
  intros Hres Hdst.
  apply (pass2D_spec (λ j i, det2D_median residual h (2 * h + 1) A D j i));
    [done|].
  intros. by apply det2D_median_is_Some.
Qed.

Lemma angles2D_pass (dst : list float) :
  Z.of_nat (length residual) = A * D →
  Z.of_nat (length dst) = A * D →
  ∃ d', pass2D (λ j i dst, RingWeights_angles2D residual dst h (2 * h + 1)
                             A D j i) A D dst = Some d'
        ∧ length d' = length dst
        ∧ ∀ i j, 0 ≤ i < A → 0 ≤ j < D →
            load d' (i * D + j)
            = angles2D_median residual h (2 * h + 1) A D j i.
Proof.
  intros Hres Hdst.
  apply (pass2D_spec
           (λ j i, angles2D_median residual h (2 * h + 1) A D j i)); [done|].
  intros. by apply angles2D_median_is_Some.
Qed.

Lemma proj3D_pass (dst : list float) :
  Z.of_nat (length residual) = A * D * S →
  Z.of_nat (length dst) = A * D * S →
  ∃ d', pass3D (λ j i k dst, RingWeights_proj3D residual dst h (2 * h + 1)
                               A D S j i k) A D S dst = Some d'
        ∧ length d' = length dst
        ∧ ∀ k i j, 0 ≤ k < S → 0 ≤ i < A → 0 ≤ j < D →
            load d' (D * A * k + i * D + j)
            = proj3D_median residual h (2 * h + 1) A D S j i k.
Proof.
  intros Hres Hdst.
  apply (pass3D_spec
           (λ j i k, proj3D_median residual h (2 * h + 1) A D S j i k));
    [done|].
  intros. by apply proj3D_median_is_Some.
Qed.

Lemma det3D_pass (dst : list float) :
  Z.of_nat (length residual) = A * D * S →
  Z.of_nat (length dst) = A * D * S →
  ∃ d', pass3D (λ j i k dst, RingWeights_det3D residual dst h (2 * h + 1)
                               A D S j i k) A D S dst = Some d'
        ∧ length d' = length dst
        ∧ ∀ k i j, 0 ≤ k < S → 0 ≤ i < A → 0 ≤ j < D →
            load d' (D * A * k + i * D + j)
            = det3D_median residual h (2 * h + 1) A D S j i k.
Proof.
  intros Hres Hdst.
  apply (pass3D_spec
           (λ j i k, det3D_median residual h (2 * h + 1) A D S j i k));
    [done|].
  intros. by apply det3D_median_is_Some.
Qed.

Lemma angles3D_pass (dst : list float) :
  Z.of_nat (length residual) = A * D * S →
  Z.of_nat (length dst) = A * D * S →
  ∃ d', pass3D (λ j i k dst, RingWeights_angles3D residual dst h
                               (2 * h + 1) A D S j i k) A D S dst = Some d'
        ∧ length d' = length dst
        ∧ ∀ k i j, 0 ≤ k < S → 0 ≤ i < A → 0 ≤ j < D →
            load d' (D * A * k + i * D + j)
            = angles3D_median residual h (2 * h + 1) A D S j i k.
Proof.
  intros Hres Hdst.
  apply (pass3D_spec
           (λ j i k, angles3D_median residual h (2 * h + 1) A D S j i k));
    [done|].
  intros. by apply angles3D_median_is_Some.
Qed.
End Passes.

Lemma calloc_length (n : Z) : 0 ≤ n → Z.of_nat (length (calloc n)) = n.
Proof. intros. unfold calloc. rewrite length_replicate. lia. Qed.

(** Deciding the [if]s of [RingWeights_main] and replaying the passes and
    loops already run. *)
Ltac decide_conds :=
  repeat match goal with
    | |- context [?a =? ?a] => rewrite (Z.eqb_refl a)
    | |- context [?a =? ?b] =>
        let H := fresh in
        assert ((a =? b) = false) as H by (apply Z.eqb_neq; lia);
        rewrite H; clear H
    end;
  cbn [andb negb].

Ltac replay :=
  repeat match goal with
    | H : ?l = Some _ |- context [?l] => rewrite H; cbn [mbind option_bind]
    end.

Ltac run_main :=
  unfold RingWeights_main, cond_proj_only, cond_det_only, cond_all,
    cond_angles_proj, cond_angles_det, cond_proj_det;
  cbv zeta; decide_conds;
  cbn [mbind option_bind]; replay; try done.

Ltac buffer_length H :=
  apply (f_equal Z.of_nat) in H;
  rewrite ?calloc_length in H by lia.

Section Dispatch3D.
Context (residual weights : list float) (A D S : Z).
Hypothesis HA : 1 ≤ A.
Hypothesis HD : 1 ≤ D.
Hypothesis HS : 2 ≤ S.
Hypothesis Hres : Z.of_nat (length residual) = A * D * S.
Hypothesis Hw : Z.of_nat (length weights) = A * D * S.

Lemma volume_positive : 0 < A * D * S.
Proof. clear Hres Hw. nia. Qed.

Lemma residual_cell (k i j : Z) :
  0 ≤ k < S → 0 ≤ i < A → 0 ≤ j < D →
  ∃ x, load residual (D * A * k + i * D + j) = Some x.
Proof.
  intros Hk Hi Hj. pose proof (index3D_bound A D S k i j Hk Hi Hj).
  apply load_is_Some. lia.
Qed.

(** Projections only: [angles == 0 && detectors == 0]. *)
Lemma main3D_proj_only (hp : Z) :
  selects_in_window hp →
  ∃ r W, RingWeights_main residual weights 0 0 hp A D S = Some (r, W)
    ∧ length W = length weights
    ∧ ∀ k i j, 0 ≤ k < S → 0 ≤ i < A → 0 ≤ j < D →
        ∃ x p, load residual (D * A * k + i * D + j) = Some x
             ∧ proj3D_median residual hp (2 * hp + 1) A D S j i k = Some p
             ∧ load W (D * A * k + i * D + j) = Some (fsub x p).
Proof.
  intros Hp. pose proof volume_positive as HN.
  pose proof (selects_in_window_pos _ Hp) as Hp1.
  destruct (proj3D_pass residual hp A D S Hp (calloc (A * D * S)))
    as (wt & Hwt & Hlwt & Hcwt); [done|by apply calloc_length; lia|].
  buffer_length Hlwt.
  destruct (sub_loop_spec (A * D * S) residual wt weights)
    as (W & HW & HlW & HcW & _); [lia..|].
  destruct (load_is_Some W 0) as [_ [r Hr]]; [lia|].
  exists r, W. split; [run_main|split; [done|]].
  intros k i j Hk Hi Hj.
  pose proof (index3D_bound A D S k i j Hk Hi Hj) as Hb.
  destruct (residual_cell k i j) as [x Hx]; [done..|].
  destruct (proj3D_median_is_Some residual hp A D S Hp j i k)
    as [p Hmed]; [done..|].
  exists x, p. split; [done|]. split; [done|].
  apply HcW; [done|done|]. by rewrite Hcwt.
Qed.

(** Detectors only: [angles == 0 && projections == 0]. *)
Lemma main3D_det_only (hd : Z) :
  selects_in_window hd →
  ∃ r W, RingWeights_main residual weights hd 0 0 A D S = Some (r, W)
    ∧ length W = length weights
    ∧ ∀ k i j, 0 ≤ k < S → 0 ≤ i < A → 0 ≤ j < D →
        ∃ x d, load residual (D * A * k + i * D + j) = Some x
             ∧ det3D_median residual hd (2 * hd + 1) A D S j i k = Some d
             ∧ load W (D * A * k + i * D + j) = Some (fsub x d).
Proof.
  intros Hd. pose proof volume_positive as HN.
  pose proof (selects_in_window_pos _ Hd) as Hd1.
  destruct (det3D_pass residual hd A D S Hd (calloc (A * D * S)))
    as (wt & Hwt & Hlwt & Hcwt); [done|by apply calloc_length; lia|].
  buffer_length Hlwt.
  destruct (sub_loop_spec (A * D * S) residual wt weights)
    as (W & HW & HlW & HcW & _); [lia..|].
  destruct (load_is_Some W 0) as [_ [r Hr]]; [lia|].
  exists r, W. split; [run_main|split; [done|]].
  intros k i j Hk Hi Hj.
  pose proof (index3D_bound A D S k i j Hk Hi Hj) as Hb.
  destruct (residual_cell k i j) as [x Hx]; [done..|].
  destruct (det3D_median_is_Some residual hd A D S Hd j i k)
    as [d Hmed]; [done..|].
  exists x, d. split; [done|]. split; [done|].
  apply HcW; [done|done|]. by rewrite Hcwt.
Qed.

(** All three windows non-zero. *)
Lemma main3D_all (hd ha hp : Z) :
  selects_in_window hd → selects_in_window ha → selects_in_window hp →
  ∃ r W, RingWeights_main residual weights hd ha hp A D S = Some (r, W)
    ∧ length W = length weights
    ∧ ∀ k i j, 0 ≤ k < S → 0 ≤ i < A → 0 ≤ j < D →
        ∃ a p d,
          angles3D_median residual ha (2 * ha + 1) A D S j i k = Some a
          ∧ proj3D_median residual hp (2 * hp + 1) A D S j i k = Some p
          ∧ det3D_median residual hd (2 * hd + 1) A D S j i k = Some d
          ∧ load W (D * A * k + i * D + j)
            = Some (fsub a (fmul fhalf (fadd p d))).
Proof.
  intros Hd Ha Hp. pose proof volume_positive as HN.
  pose proof (selects_in_window_pos _ Hd) as Hd1.
  pose proof (selects_in_window_pos _ Ha) as Ha1.
  pose proof (selects_in_window_pos _ Hp) as Hp1.
  destruct (angles3D_pass residual ha A D S Ha (calloc (A * D * S)))
    as (wt & Hwt & Hlwt & Hcwt); [done|by apply calloc_length; lia|].
  destruct (proj3D_pass residual hp A D S Hp (calloc (A * D * S)))
    as (wt2 & Hwt2 & Hlwt2 & Hcwt2); [done|by apply calloc_length; lia|].
  destruct (det3D_pass residual hd A D S Hd weights)
    as (w1 & Hw1 & Hlw1 & Hcw1); [done..|].
  buffer_length Hlwt. buffer_length Hlwt2. buffer_length Hlw1.
  destruct (half_loop_inplace_spec (A * D * S) wt wt2 w1)
    as (W & HW & HlW & HcW & _); [lia..|].
  destruct (load_is_Some W 0) as [_ [r Hr]]; [lia|].
  exists r, W. split; [run_main|split; [lia|]].
  intros k i j Hk Hi Hj.
  pose proof (index3D_bound A D S k i j Hk Hi Hj) as Hb.
  destruct (angles3D_median_is_Some residual ha A D S Ha j i k)
    as [a Hma]; [done..|].
  destruct (proj3D_median_is_Some residual hp A D S Hp j i k)
    as [p Hmp]; [done..|].
  destruct (det3D_median_is_Some residual hd A D S Hd j i k)
    as [d Hmd]; [done..|].
  exists a, p, d. do 3 (split; [done|]).
  apply HcW; [done|..].
  - by rewrite Hcwt.
  - by rewrite Hcwt2.
  - by rewrite Hcw1.
Qed.

(** Angles and projections: [detectors == 0]. *)
Lemma main3D_angles_proj (ha hp : Z) :
  selects_in_window ha → selects_in_window hp →
  ∃ r W, RingWeights_main residual weights 0 ha hp A D S = Some (r, W)
    ∧ length W = length weights
    ∧ ∀ k i j, 0 ≤ k < S → 0 ≤ i < A → 0 ≤ j < D →
        ∃ a p,
          angles3D_median residual ha (2 * ha + 1) A D S j i k = Some a
          ∧ proj3D_median residual hp (2 * hp + 1) A D S j i k = Some p
          ∧ load W (D * A * k + i * D + j) = Some (fsub a p).
Proof.
  intros Ha Hp. pose proof volume_positive as HN.
  pose proof (selects_in_window_pos _ Ha) as Ha1.
  pose proof (selects_in_window_pos _ Hp) as Hp1.
  destruct (angles3D_pass residual ha A D S Ha (calloc (A * D * S)))
    as (wt & Hwt & Hlwt & Hcwt); [done|by apply calloc_length; lia|].
  destruct (proj3D_pass residual hp A D S Hp (calloc (A * D * S)))
    as (wt2 & Hwt2 & Hlwt2 & Hcwt2); [done|by apply calloc_length; lia|].
  buffer_length Hlwt. buffer_length Hlwt2.
  destruct (sub_loop_spec (A * D * S) wt wt2 weights)
    as (W & HW & HlW & HcW & _); [lia..|].
  destruct (load_is_Some W 0) as [_ [r Hr]]; [lia|].
  exists r, W. split; [run_main|split; [done|]].
  intros k i j Hk Hi Hj.
  pose proof (index3D_bound A D S k i j Hk Hi Hj) as Hb.
  destruct (angles3D_median_is_Some residual ha A D S Ha j i k)
    as [a Hma]; [done..|].
  destruct (proj3D_median_is_Some residual hp A D S Hp j i k)
    as [p Hmp]; [done..|].
  exists a, p. do 2 (split; [done|]).
  apply HcW; [done|..].
  - by rewrite Hcwt.
  - by rewrite Hcwt2.
Qed.

(** Angles and detectors: [projections == 0]. *)
Lemma main3D_angles_det (hd ha : Z) :
  selects_in_window hd → selects_in_window ha →
  ∃ r W, RingWeights_main residual weights hd ha 0 A D S = Some (r, W)
    ∧ length W = length weights
    ∧ ∀ k i j, 0 ≤ k < S → 0 ≤ i < A → 0 ≤ j < D →
        ∃ a d,
          angles3D_median residual ha (2 * ha + 1) A D S j i k = Some a
          ∧ det3D_median residual hd (2 * hd + 1) A D S j i k = Some d
          ∧ load W (D * A * k + i * D + j) = Some (fsub a d).
Proof.
  intros Hd Ha. pose proof volume_positive as HN.
  pose proof (selects_in_window_pos _ Hd) as Hd1.
  pose proof (selects_in_window_pos _ Ha) as Ha1.
  destruct (angles3D_pass residual ha A D S Ha (calloc (A * D * S)))
    as (wt & Hwt & Hlwt & Hcwt); [done|by apply calloc_length; lia|].
  destruct (det3D_pass residual hd A D S Hd (calloc (A * D * S)))
    as (wt2 & Hwt2 & Hlwt2 & Hcwt2); [done|by apply calloc_length; lia|].
  buffer_length Hlwt. buffer_length Hlwt2.
  destruct (sub_loop_spec (A * D * S) wt wt2 weights)
    as (W & HW & HlW & HcW & _); [lia..|].
  destruct (load_is_Some W 0) as [_ [r Hr]]; [lia|].
  exists r, W. split; [run_main|split; [done|]].
  intros k i j Hk Hi Hj.
  pose proof (index3D_bound A D S k i j Hk Hi Hj) as Hb.
  destruct (angles3D_median_is_Some residual ha A D S Ha j i k)
    as [a Hma]; [done..|].
  destruct (det3D_median_is_Some residual hd A D S Hd j i k)
    as [d Hmd]; [done..|].
  exists a, d. do 2 (split; [done|]).
  apply HcW; [done|..].
  - by rewrite Hcwt.
  - by rewrite Hcwt2.
Qed.

(** Projections and detectors: [angles == 0]. *)
Lemma main3D_proj_det (hd hp : Z) :
  selects_in_window hd → selects_in_window hp →
  ∃ r W, RingWeights_main residual weights hd 0 hp A D S = Some (r, W)
    ∧ length W = length weights
    ∧ ∀ k i j, 0 ≤ k < S → 0 ≤ i < A → 0 ≤ j < D →
        ∃ x p d,
          load residual (D * A * k + i * D + j) = Some x
          ∧ proj3D_median residual hp (2 * hp + 1) A D S j i k = Some p
          ∧ det3D_median residual hd (2 * hd + 1) A D S j i k = Some d
          ∧ load W (D * A * k + i * D + j)
            = Some (fsub x (fmul fhalf (fadd p d))).
Proof.
  intros Hd Hp. pose proof volume_positive as HN.
  pose proof (selects_in_window_pos _ Hd) as Hd1.
  pose proof (selects_in_window_pos _ Hp) as Hp1.
  destruct (proj3D_pass residual hp A D S Hp (calloc (A * D * S)))
    as (wt & Hwt & Hlwt & Hcwt); [done|by apply calloc_length; lia|].
  destruct (det3D_pass residual hd A D S Hd (calloc (A * D * S)))
    as (wt2 & Hwt2 & Hlwt2 & Hcwt2); [done|by apply calloc_length; lia|].
  buffer_length Hlwt. buffer_length Hlwt2.
  destruct (half_loop_spec (A * D * S) residual wt wt2 weights)
    as (W & HW & HlW & HcW & _); [lia..|].
  destruct (load_is_Some W 0) as [_ [r Hr]]; [lia|].
  exists r, W. split; [run_main|split; [done|]].
  intros k i j Hk Hi Hj.
  pose proof (index3D_bound A D S k i j Hk Hi Hj) as Hb.
  destruct (residual_cell k i j) as [x Hx]; [done..|].
  destruct (proj3D_median_is_Some residual hp A D S Hp j i k)
    as [p Hmp]; [done..|].
  destruct (det3D_median_is_Some residual hd A D S Hd j i k)
    as [d Hmd]; [done..|].
  exists x, p, d. do 3 (split; [done|]).
  apply HcW; [done|done|..].
  - by rewrite Hcwt.
  - by rewrite Hcwt2.
Qed.
End Dispatch3D.

Section Dispatch2D.
Context (residual weights : list float) (A D : Z).
Hypothesis HA : 1 ≤ A.
Hypothesis HD : 1 ≤ D.
Hypothesis Hres : Z.of_nat (length residual) = A * D.
Hypothesis Hw : Z.of_nat (length weights) = A * D.

Lemma area_positive : 0 < A * D.
Proof. clear Hres Hw. nia. Qed.

Lemma residual_cell2D (i j : Z) :
  0 ≤ i < A → 0 ≤ j < D → ∃ x, load residual (i * D + j) = Some x.
Proof.
  intros Hi Hj. pose proof (index2D_bound A D i j Hi Hj).
  apply load_is_Some. lia.
Qed.

(** [window_halfsize_angles == 0]: detectors only; the projection
    half-size is not looked at. *)
Lemma main2D_det (hd hp : Z) :
  selects_in_window hd →
  ∃ r W, RingWeights_main residual weights hd 0 hp A D 1 = Some (r, W)
    ∧ length W = length weights
    ∧ ∀ i j, 0 ≤ i < A → 0 ≤ j < D →
        ∃ x d, load residual (i * D + j) = Some x
             ∧ det2D_median residual hd (2 * hd + 1) A D j i = Some d
             ∧ load W (i * D + j) = Some (fsub x d).
Proof.
  intros Hd. pose proof area_positive as HN.
  pose proof (selects_in_window_pos _ Hd) as Hd1.
  destruct (det2D_pass residual hd A D Hd (calloc (A * D * 1)))
    as (wt & Hwt & Hlwt & Hcwt);
    [done|by rewrite calloc_length by lia; lia|].
  buffer_length Hlwt.
  destruct (sub_loop_spec (A * D) residual wt weights)
    as (W & HW & HlW & HcW & _); [lia..|].
  destruct (load_is_Some W 0) as [_ [r Hr]]; [lia|].
  exists r, W. split; [run_main|split; [done|]].
  intros i j Hi Hj.
  pose proof (index2D_bound A D i j Hi Hj) as Hb.
  destruct (residual_cell2D i j) as [x Hx]; [done..|].
  destruct (det2D_median_is_Some residual hd A D Hd j i)
    as [d Hmed]; [done..|].
  exists x, d. split; [done|]. split; [done|].
  apply HcW; [done|done|]. by rewrite Hcwt.
Qed.

(** [window_halfsize_angles != 0]: angles, then detectors. *)
Lemma main2D_angles_det (hd ha hp : Z) :
  selects_in_window hd → selects_in_window ha →
  ∃ r W, RingWeights_main residual weights hd ha hp A D 1 = Some (r, W)
    ∧ length W = length weights
    ∧ ∀ i j, 0 ≤ i < A → 0 ≤ j < D →
        ∃ a d, angles2D_median residual ha (2 * ha + 1) A D j i = Some a
             ∧ det2D_median residual hd (2 * hd + 1) A D j i = Some d
             ∧ load W (i * D + j) = Some (fsub a d).
Proof.
  intros Hd Ha. pose proof area_positive as HN.
  pose proof (selects_in_window_pos _ Hd) as Hd1.
  pose proof (selects_in_window_pos _ Ha) as Ha1.
  destruct (angles2D_pass residual ha A D Ha (calloc (A * D * 1)))
    as (wt & Hwt & Hlwt & Hcwt);
    [done|by rewrite calloc_length by lia; lia|].
  destruct (det2D_pass residual hd A D Hd weights)
    as (w1 & Hw1 & Hlw1 & Hcw1); [done..|].
  buffer_length Hlwt. buffer_length Hlw1.
  destruct (sub_loop_inplace_spec (A * D) wt w1)
    as (W & HW & HlW & HcW & _); [lia..|].
  destruct (load_is_Some W 0) as [_ [r Hr]]; [lia|].
  exists r, W. split; [run_main|split; [lia|]].
  intros i j Hi Hj.
  pose proof (index2D_bound A D i j Hi Hj) as Hb.
  destruct (angles2D_median_is_Some residual ha A D Ha j i)
    as [a Hma]; [done..|].
  destruct (det2D_median_is_Some residual hd A D Hd j i)
    as [d Hmd]; [done..|].
  exists a, d. do 2 (split; [done|]).
  apply HcW; [done|..].
  - by rewrite Hcwt.
  - by rewrite Hcw1.
Qed.
End Dispatch2D.

(** ** Half-size zero (or negative): the selected position is outside the
    window *)

Lemma axis_median_outside (src : list float) (h axisLen pos index : Z)
    (nb : Z → Z) :
  ¬ selects_in_window h →
  axis_median src h (2 * h + 1) axisLen pos index nb = None.
Proof.
  intros Hout. destruct (decide (0 ≤ h)) as [Hh|Hh].
  - rewrite axis_median_sorted_window by done.
    destruct (midval (2 * h + 1)) as [m|] eqn:Hm; [|done].
    cbn [mbind option_bind].
    destruct (window _ _ _ _ _ _) as [w|] eqn:Hw; [|done].
    cbn [mbind option_bind].
    assert (¬ 0 ≤ m < 2 * h + 1) as Hr by (intros ?; apply Hout; by exists m).
    destruct (decide (m < 0)); [by apply load_neg|]. apply load_ge.
    rewrite sort_window_length, (window_length _ _ _ _ _ _ _ Hh Hw). lia.
  - unfold axis_median. destruct (midval (2 * h + 1)); [|done].
    cbn [mbind option_bind]. unfold gather.
    rewrite for_range_empty by lia.
    cbn [mbind option_bind]. unfold calloc.
    replace (Z.to_nat (2 * h + 1)) with 0%nat by lia. cbn [replicate].
    unfold bubble_sort. rewrite for_range_empty by lia.
    cbn [mbind option_bind]. unfold load. by destruct (0 <=? _).
Qed.

Lemma axis_median_nonpos (src : list float) (h axisLen pos index : Z)
    (nb : Z → Z) :
  h ≤ 0 → axis_median src h (2 * h + 1) axisLen pos index nb = None.
Proof. intros. by apply axis_median_outside, nonpos_outside. Qed.

Lemma for_range_head {S} (lo hi : Z) (body : Z → S → option S) (s : S) :
  lo < hi →
  for_range lo hi body s = s' ← body lo s; for_range (lo + 1) hi body s'.
Proof.
  intros. unfold for_range. rewrite seqZ_cons by lia. cbn [for_each].
  replace (Z.pred (hi - lo)) with (hi - (lo + 1)) by lia.
  replace (Z.succ lo) with (lo + 1) by lia. by destruct (body lo s).
Qed.

Lemma pass2D_first_fails (f : Z → Z → list float → option (list float))
    (A D : Z) (dst : list float) :
  1 ≤ A → 1 ≤ D → f 0 0 dst = None → pass2D f A D dst = None.
Proof.
  intros HA HD Hf. unfold pass2D.
  rewrite for_range_head by lia. rewrite for_range_head by lia.
  by rewrite Hf.
Qed.

Lemma pass3D_first_fails
    (f : Z → Z → Z → list float → option (list float))
    (A D S : Z) (dst : list float) :
  1 ≤ A → 1 ≤ D → 1 ≤ S → f 0 0 0 dst = None → pass3D f A D S dst = None.
Proof.
  intros HA HD HS Hf. unfold pass3D.
  do 3 (rewrite for_range_head by lia). by rewrite Hf.
Qed.

Section Undefined.
Context (src dst : list float) (h A D S : Z).
Hypothesis Hh : ¬ selects_in_window h.

Lemma det2D_outside (j i : Z) :
  RingWeights_det2D src dst h (2 * h + 1) A D j i = None.
Proof.
  unfold RingWeights_det2D, det2D_median.
  by rewrite axis_median_outside.
Qed.

Lemma angles2D_outside (j i : Z) :
  RingWeights_angles2D src dst h (2 * h + 1) A D j i = None.
Proof.
  unfold RingWeights_angles2D, angles2D_median.
  by rewrite axis_median_outside.
Qed.

Lemma proj3D_outside (j i k : Z) :
  RingWeights_proj3D src dst h (2 * h + 1) A D S j i k = None.
Proof.
  unfold RingWeights_proj3D, proj3D_median.
  by rewrite axis_median_outside.
Qed.

Lemma det3D_outside (j i k : Z) :
  RingWeights_det3D src dst h (2 * h + 1) A D S j i k = None.
Proof.
  unfold RingWeights_det3D, det3D_median.
  by rewrite axis_median_outside.
Qed.

Lemma angles3D_outside (j i k : Z) :
  RingWeights_angles3D src dst h (2 * h + 1) A D S j i k = None.
Proof.
  unfold RingWeights_angles3D, angles3D_median.
  by rewrite axis_median_outside.
Qed.

Lemma det2D_pass_outside :
  1 ≤ A → 1 ≤ D →
  pass2D (λ j i dst, RingWeights_det2D src dst h (2 * h + 1) A D j i)
    A D dst = None.
Proof. intros. apply pass2D_first_fails; auto using det2D_outside. Qed.

Lemma angles2D_pass_outside :
  1 ≤ A → 1 ≤ D →
  pass2D (λ j i dst, RingWeights_angles2D src dst h (2 * h + 1) A D j i)
    A D dst = None.
Proof. intros. apply pass2D_first_fails; auto using angles2D_outside. Qed.

Lemma proj3D_pass_outside :
  1 ≤ A → 1 ≤ D → 1 ≤ S →
  pass3D (λ j i k dst, RingWeights_proj3D src dst h (2 * h + 1)
                         A D S j i k) A D S dst = None.
Proof. intros. apply pass3D_first_fails; auto using proj3D_outside. Qed.

Lemma det3D_pass_outside :
  1 ≤ A → 1 ≤ D → 1 ≤ S →
  pass3D (λ j i k dst, RingWeights_det3D src dst h (2 * h + 1)
                         A D S j i k) A D S dst = None.
Proof. intros. apply pass3D_first_fails; auto using det3D_outside. Qed.

Lemma angles3D_pass_outside :
  1 ≤ A → 1 ≤ D → 1 ≤ S →
  pass3D (λ j i k dst, RingWeights_angles3D src dst h (2 * h + 1)
                         A D S j i k) A D S dst = None.
Proof. intros. apply pass3D_first_fails; auto using angles3D_outside. Qed.
End Undefined.

Lemma det2D_nonpos (src dst : list float) (h A D j i : Z) :
  h ≤ 0 → RingWeights_det2D src dst h (2 * h + 1) A D j i = None.
Proof. intros. by apply det2D_outside, nonpos_outside. Qed.

Lemma angles2D_nonpos (src dst : list float) (h A D j i : Z) :
  h ≤ 0 → RingWeights_angles2D src dst h (2 * h + 1) A D j i = None.
Proof. intros. by apply angles2D_outside, nonpos_outside. Qed.

Lemma proj3D_nonpos (src dst : list float) (h A D S j i k : Z) :
  h ≤ 0 → RingWeights_proj3D src dst h (2 * h + 1) A D S j i k = None.
Proof. intros. by apply proj3D_outside, nonpos_outside. Qed.

Lemma det3D_nonpos (src dst : list float) (h A D S j i k : Z) :
  h ≤ 0 → RingWeights_det3D src dst h (2 * h + 1) A D S j i k = None.
Proof. intros. by apply det3D_outside, nonpos_outside. Qed.

Lemma angles3D_nonpos (src dst : list float) (h A D S j i k : Z) :
  h ≤ 0 → RingWeights_angles3D src dst h (2 * h + 1) A D S j i k = None.
Proof. intros. by apply angles3D_outside, nonpos_outside. Qed.

(** ** Empty loop nests *)

Lemma for_each_skip {X S} (xs : list X) (body : X → S → option S) (s : S) :
  (∀ x, x ∈ xs → body x s = Some s) → for_each xs body s = Some s.
Proof.
  induction xs as [|x xs IH]; intros Hb; simpl; [done|].
  rewrite Hb by left. apply IH. intros. apply Hb. by right.
Qed.

Lemma pass2D_empty (f : Z → Z → list float → option (list float))
    (A D : Z) (dst : list float) :
  A ≤ 0 ∨ D ≤ 0 → pass2D f A D dst = Some dst.
Proof.
  intros H. unfold pass2D, for_range. apply for_each_skip.
  intros i Hi%elem_of_seqZ. rewrite seqZ_nil by lia. done.
Qed.

Lemma pass3D_empty (f : Z → Z → Z → list float → option (list float))
    (A D S : Z) (dst : list float) :
  A ≤ 0 ∨ D ≤ 0 ∨ S ≤ 0 → pass3D f A D S dst = Some dst.
Proof.
  intros H. unfold pass3D, for_range. apply for_each_skip.
  intros k Hk%elem_of_seqZ. apply for_each_skip.
  intros i Hi%elem_of_seqZ. rewrite seqZ_nil by lia. done.
Qed.

(** ** What each position of the window holds *)



(** ** Constant volumes *)



Lemma flat_index_cell (A D S p : Z) :
  1 ≤ A → 1 ≤ D → 0 ≤ p < A * D * S →
  ∃ k i j, 0 ≤ k < S ∧ 0 ≤ i < A ∧ 0 ≤ j < D
           ∧ p = D * A * k + i * D + j.
Proof.
  intros HA HD Hp.
  pose proof (Z.div_mod p D ltac:(lia)) as Hpd.
  pose proof (Z.mod_pos_bound p D ltac:(lia)) as Hj.
  pose proof (Z.div_mod (p / D) A ltac:(lia)) as Hqd.
  pose proof (Z.mod_pos_bound (p / D) A ltac:(lia)) as Hi.
  exists (p / D / A), (p / D mod A), (p mod D).
  assert (0 ≤ p / D) by (apply Z.div_pos; lia).
  assert (0 ≤ p / D / A) by (apply Z.div_pos; lia).
  assert (p / D < A * S).
  { apply Z.div_lt_upper_bound; [lia|]. nia. }
  assert (p / D / A < S).
  { apply Z.div_lt_upper_bound; [lia|]. nia. }
  repeat split; (lia || nia).
Qed.

Lemma main_returns_first (residual weights : list float)
    (hd ha hp A D S : Z) (r : float) (W : list float) :
  RingWeights_main residual weights hd ha hp A D S = Some (r, W) →
  load W 0 = Some r.
Proof.
  unfold RingWeights_main. cbv zeta. intros H.
  apply bind_Some in H as (W' & _ & H).
  apply bind_Some in H as (r' & Hr & H). by simplify_eq.
Qed.


(** ** Invocations with no defined result *)

Ltac replay_fail :=
  repeat match goal with
    | H : ?l = Some _ |- context [?l] => rewrite H; cbn [mbind option_bind]
    | H : ?l = None |- context [?l] => rewrite H; cbn [mbind option_bind]
    end.

Ltac run_main_fail :=
  unfold RingWeights_main, cond_proj_only, cond_det_only, cond_all,
    cond_angles_proj, cond_angles_det, cond_proj_det;
  cbv zeta; decide_conds;
  cbn [mbind option_bind]; replay_fail; try done.

Section Undefined2D.
Context (residual weights : list float) (A D : Z).
Hypothesis HA : 1 ≤ A.
Hypothesis HD : 1 ≤ D.

Lemma main2D_det_undefined (hd hp : Z) :
  hd ≤ 0 → RingWeights_main residual weights hd 0 hp A D 1 = None.
Proof.
  intros Hd.
  pose proof (det2D_pass_outside residual (calloc (A * D * 1)) hd A D
                (nonpos_outside hd Hd) HA HD) as Hfail.
  run_main_fail.
Qed.
End Undefined2D.

Section Undefined3D.
Context (residual weights : list float) (A D S : Z).
Hypothesis HA : 1 ≤ A.
Hypothesis HD : 1 ≤ D.
Hypothesis HS : 2 ≤ S.

(** All three half-sizes zero: the projection-only block runs first and
    its filter already reads outside its window. *)
Lemma main3D_zero_undefined :
  RingWeights_main residual weights 0 0 0 A D S = None.
Proof.
  pose proof (proj3D_pass_outside residual (calloc (A * D * S)) 0 A D S
                (nonpos_outside 0 ltac:(lia)) HA HD ltac:(lia)) as Hfail.
  run_main_fail.
Qed.

(** The three-way block with a filter that selects outside its window. *)
Lemma main3D_all_undefined (hd ha hp : Z) :
  Z.of_nat (length residual) = A * D * S →
  ha ≠ 0 → hp ≠ 0 → hd ≠ 0 →
  ¬ (selects_in_window ha ∧ selects_in_window hp ∧ selects_in_window hd) →
  RingWeights_main residual weights hd ha hp A D S = None.
Proof.
  intros Hres Ha Hp Hd Hneg.
  pose proof (volume_positive A D S HA HD HS) as HN.
  destruct (selects_in_window_dec ha) as [Ha'|Ha'].
  2:{ pose proof (angles3D_pass_outside residual (calloc (A * D * S)) ha A D S
                    Ha' HA HD ltac:(lia)) as Hfail.
      run_main_fail. }
  destruct (angles3D_pass residual ha A D S Ha' (calloc (A * D * S)))
    as (wt & Hwt & _); [done|by apply calloc_length; lia|].
  destruct (selects_in_window_dec hp) as [Hp'|Hp'].
  2:{ pose proof (proj3D_pass_outside residual (calloc (A * D * S)) hp A D S
                    Hp' HA HD ltac:(lia)) as Hfail.
      run_main_fail. }
  destruct (proj3D_pass residual hp A D S Hp' (calloc (A * D * S)))
    as (wt2 & Hwt2 & _); [done|by apply calloc_length; lia|].
  assert (¬ selects_in_window hd) as Hd' by tauto.
  pose proof (det3D_pass_outside residual weights hd A D S
                Hd' HA HD ltac:(lia)) as Hfail.
  run_main_fail.
Qed.
End Undefined3D.

(** ** Cancellation in binary32 *)


(** * The claims *)

(** ** C1: one active axis, in 3D *)

(** C1 fails as stated: with angle and projection half-sizes zero and
    detector half-size 1, the call subtracts the detector median (9 = 10 - 1
    at the first cell, 7 = 9 - 2 at the fifth), while the projection filter
    the claim names has, for half-size 0, no value at any cell. *)
Lemma C1_counterexample :
  RingWeights_main volume_1x3x2 sevens_6 1 0 0 1 3 2
  = Some (of_Z 9, of_Z <$> [9; 0; 0; 0; 7; 0])
  ∧ det3D_median volume_1x3x2 1 (2 * 1 + 1) 1 3 2 0 0 0 = Some (of_Z 1)
  ∧ proj3D_median volume_1x3x2 0 (2 * 0 + 1) 1 3 2 0 0 0 = None
  ∧ ¬ ∃ r W,
        RingWeights_main volume_1x3x2 sevens_6 1 0 0 1 3 2 = Some (r, W)
        ∧ ∀ k i j, 0 ≤ k < 2 → 0 ≤ i < 1 → 0 ≤ j < 3 →
            ∃ x p,
              load volume_1x3x2 (3 * 1 * k + i * 3 + j) = Some x
              ∧ proj3D_median volume_1x3x2 0 (2 * 0 + 1) 1 3 2 j i k
                = Some p
              ∧ load W (3 * 1 * k + i * 3 + j) = Some (fsub x p).
Proof.
  split; [vm_compute; reflexivity|].
  split; [vm_compute; reflexivity|].
  split; [vm_compute; reflexivity|].
  intros (r & W & _ & Hcells).
  destruct (Hcells 0 0 0) as (x & p & _ & Hp & _); [lia..|].
  vm_compute in Hp. discriminate.
Qed.

(** C1 (as amended).  In the 3D path, when the angle and detector
    half-sizes are zero and the projection half-size is at least 1, the
    weights are [residual - ProjectionMedian(residual)] at every cell; when
    the angle and projection half-sizes are zero and the detector half-size
    is at least 1, they are [residual - DetectorMedian(residual)].  The
    window size [2h+1] is an [int]: the half-size is below 2^30. *)
Theorem C1_single_axis_3D (residual weights : list float)
    (hd hp A D S : Z) :
  1 ≤ A → 1 ≤ D → 2 ≤ S →
  Z.of_nat (length residual) = A * D * S →
  Z.of_nat (length weights) = A * D * S →
  1 ≤ hd < 2 ^ 30 → 1 ≤ hp < 2 ^ 30 →
  (∃ r W, RingWeights_main residual weights 0 0 hp A D S = Some (r, W)
     ∧ length W = length weights
     ∧ ∀ k i j, 0 ≤ k < S → 0 ≤ i < A → 0 ≤ j < D →
         ∃ x p, load residual (D * A * k + i * D + j) = Some x
              ∧ proj3D_median residual hp (2 * hp + 1) A D S j i k = Some p
              ∧ load W (D * A * k + i * D + j) = Some (fsub x p))
  ∧ (∃ r W, RingWeights_main residual weights hd 0 0 A D S = Some (r, W)
       ∧ length W = length weights
       ∧ ∀ k i j, 0 ≤ k < S → 0 ≤ i < A → 0 ≤ j < D →
           ∃ x d, load residual (D * A * k + i * D + j) = Some x
                ∧ det3D_median residual hd (2 * hd + 1) A D S j i k = Some d
                ∧ load W (D * A * k + i * D + j) = Some (fsub x d)).
Proof.
  intros HA HD HS Hres Hw Hd Hp. split.
  - apply main3D_proj_only; auto using selects_in_window_int.
  - apply main3D_det_only; auto using selects_in_window_int.
Qed.

Lemma C1_witness :
  (1 ≤ 1 ∧ 1 ≤ 3 ∧ 2 ≤ 2 ∧ 1 ≤ 1 < 2 ^ 30)
  ∧ (∃ r W, RingWeights_main volume_1x3x2 sevens_6 0 0 1 1 3 2 = Some (r, W))
  ∧ (∃ r W, RingWeights_main volume_1x3x2 sevens_6 1 0 0 1 3 2 = Some (r, W)).
Proof.
  split; [lia|].
  destruct (C1_single_axis_3D volume_1x3x2 sevens_6 1 1 1 3 2)
    as [(r1 & W1 & H1 & _) (r2 & W2 & H2 & _)]; try lia; try reflexivity.
  split; eauto.
Defined.

(** ** C2: all three half-sizes zero, in 3D *)

(** C2 fails as stated: with all three half-sizes zero the projection-only
    condition holds, its block runs, and the call does not return [weights]
    unmodified. *)
Lemma C2_counterexample :
  cond_proj_only 0 0 0 = true
  ∧ RingWeights_main volume_1x3x2 sevens_6 0 0 0 1 3 2 = None
  ∧ ¬ ∃ r, RingWeights_main volume_1x3x2 sevens_6 0 0 0 1 3 2
           = Some (r, sevens_6).
Proof.
  assert (RingWeights_main volume_1x3x2 sevens_6 0 0 0 1 3 2 = None) as H
    by (vm_compute; reflexivity).
  split; [reflexivity|]. split; [exact H|].
  intros [r Hr]. rewrite H in Hr. discriminate.
Qed.

(** C2 (as amended).  In the 3D path with all three half-sizes zero, the
    projection-only and the detector-only conditions both hold, so blocks do
    run; their filters are called with half-size 0, for which the selected
    window position is [-1], and the invocation has no defined result. *)
Theorem C2_all_zero_3D_runs_blocks (residual weights : list float)
    (A D S : Z) :
  1 ≤ A → 1 ≤ D → 2 ≤ S →
  cond_proj_only 0 0 0 = true ∧ cond_det_only 0 0 0 = true
  ∧ midval (2 * 0 + 1) = Some (-1)
  ∧ RingWeights_main residual weights 0 0 0 A D S = None.
Proof.
  intros HA HD HS. do 2 (split; [reflexivity|]).
  split; [apply midval_one|].
  by apply main3D_zero_undefined.
Qed.

Lemma C2_witness :
  (1 ≤ 2 ∧ 1 ≤ 2 ∧ 2 ≤ 2)
  ∧ RingWeights_main volume_2x2x2 (calloc 8) 0 0 0 2 2 2 = None.
Proof.
  split; [lia|].
  apply (C2_all_zero_3D_runs_blocks volume_2x2x2 (calloc 8) 2 2 2); lia.
Defined.

(** ** C3: the sorted window and the selected position *)

(** C3 fails as stated, in two ways.  A NaN compares false with everything,
    so the bubble sort leaves the window [3, NaN, 1] as it is: the result is
    not ascending, and the detector filter with [h = 1] stores 3, the
    largest sample, at the middle cell of that row.  And for the half-size
    8388609 the window size 16777219 is not a binary32 number:
    [0.5f*full_window] is 8388610 and the selected position is [h] itself,
    not [h - 1]. *)
Lemma C3_counterexample :
  window row_3_nan_1 1 3 1 1 (λ j1, 0 * 3 + j1) = Some row_3_nan_1
  ∧ bubble_sort fgt row_3_nan_1 3 = Some row_3_nan_1
  ∧ ¬ StronglySorted fle row_3_nan_1
  ∧ RingWeights_det2D row_3_nan_1 (calloc 3) 1 (2 * 1 + 1) 1 3 1 0
    = Some [fzero; of_Z 3; fzero]
  ∧ midval (2 * 8388609 + 1) = Some 8388609
  ∧ (∀ src axisLen pos index nb,
       axis_median src 8388609 (2 * 8388609 + 1) axisLen pos index nb
       = w ← window src 8388609 axisLen pos index nb;
         load (sort_window fgt w) 8388609).
Proof.
  split; [vm_compute; reflexivity|].
  split; [vm_compute; reflexivity|].
  split.
  { intros Hs. apply StronglySorted_inv in Hs as [_ Hall].
    apply Forall_cons in Hall as [Hnan _]. vm_compute in Hnan.
    discriminate. }
  split; [vm_compute; reflexivity|].
  split; [apply midval_beyond_range|apply axis_median_beyond_range].
Qed.

(** C3 (as amended).  For a filter called with half-size [h] whose window
    has fewer than 2^24 samples, the [2h+1] gathered samples are sorted by
    the bubble sort: the sorted window is a rearrangement of the gathered
    one, ascending whenever no sample is a NaN.  The selected position
    [midval] is [h - 1], and the value the filter stores at its output cell
    is the sample at zero-based position [h - 1] of the sorted window, one
    below the middle position [h]; this holds for the shared filter body and
    for each of the five filters with its own axis.  On the row
    [1, 2, 3, 4, 5] with [h = 2] the value is 2. *)
Theorem C3_sorted_window_position (h : Z) :
  0 ≤ h < 2 ^ 23 →
  (∀ w : list float,
     bubble_sort fgt w (Z.of_nat (length w)) = Some (sort_window fgt w)
     ∧ sort_window fgt w ≡ₚ w
     ∧ (Forall (λ x, is_nan x = false) w
        → StronglySorted fle (sort_window fgt w)))
  ∧ midval (2 * h + 1) = Some (h - 1)
  ∧ (∀ src axisLen pos index nb w,
       window src h axisLen pos index nb = Some w →
       Z.of_nat (length w) = 2 * h + 1
       ∧ axis_median src h (2 * h + 1) axisLen pos index nb
         = load (sort_window fgt w) (h - 1))
  ∧ (∀ residual dst A D j i,
       RingWeights_det2D residual dst h (2 * h + 1) A D j i
       = w ← window residual h D j (i * D + j) (λ j1, i * D + j1);
         v ← load (sort_window fgt w) (h - 1);
         store dst (i * D + j) v)
  ∧ (∀ src dst A D j i,
       RingWeights_angles2D src dst h (2 * h + 1) A D j i
       = w ← window src h A i (i * D + j) (λ i1, i1 * D + j);
         v ← load (sort_window fgt w) (h - 1);
         store dst (i * D + j) v)
  ∧ (∀ residual dst A D S j i k,
       RingWeights_proj3D residual dst h (2 * h + 1) A D S j i k
       = w ← window residual h S k (D * A * k + i * D + j)
               (λ k1, D * A * k1 + i * D + j);
         v ← load (sort_window fgt w) (h - 1);
         store dst (D * A * k + i * D + j) v)
  ∧ (∀ residual dst A D S j i k,
       RingWeights_det3D residual dst h (2 * h + 1) A D S j i k
       = w ← window residual h D j (D * A * k + i * D + j)
               (λ j1, D * A * k + i * D + j1);
         v ← load (sort_window fgt w) (h - 1);
         store dst (D * A * k + i * D + j) v)
  ∧ (∀ src dst A D S j i k,
       RingWeights_angles3D src dst h (2 * h + 1) A D S j i k
       = w ← window src h A i (D * A * k + i * D + j)
               (λ i1, D * A * k + i1 * D + j);
         v ← load (sort_window fgt w) (h - 1);
         store dst (D * A * k + i * D + j) v)
  ∧ window row_1_to_5 2 5 2 2 (λ j1, 0 * 5 + j1) = Some row_1_to_5
  ∧ RingWeights_det2D row_1_to_5 (calloc 5) 2 (2 * 2 + 1) 1 5 2 0
    = Some [fzero; fzero; of_Z 2; fzero; fzero].
Proof.
  intros Hh.
  split.
  { intros w. split; [apply bubble_sort_sort_window|].
    split; [apply sort_window_perm|apply sort_window_ascending]. }
  split; [by apply midval_exact|].
  split.
  { intros src axisLen pos index nb w Hw.
    split; [eapply window_length; [lia|done]|].
    rewrite axis_median_sorted_window_exact by done. by rewrite Hw. }
  assert (∀ src axisLen pos index nb (dst : list float) (p : Z),
            (v ← axis_median src h (2 * h + 1) axisLen pos index nb;
             store dst p v)
            = w ← window src h axisLen pos index nb;
              v ← load (sort_window fgt w) (h - 1);
              store dst p v) as Hbody.
  { intros. rewrite axis_median_sorted_window_exact by done.
    by destruct (window _ _ _ _ _ _). }
  split; [intros; apply Hbody|].
  split; [intros; apply Hbody|].
  split; [intros; apply Hbody|].
  split; [intros; apply Hbody|].
  split; [intros; apply Hbody|].
  split; vm_compute; reflexivity.
Qed.

Lemma C3_witness :
  0 ≤ 2 < 2 ^ 23
  ∧ axis_median row_1_to_5 2 (2 * 2 + 1) 5 2 2 (λ j1, 0 * 5 + j1)
    = Some (of_Z 2).
Proof.
  split; [lia|].
  destruct (C3_sorted_window_position 2)
    as (_ & _ & H & _ & _ & _ & _ & _ & Hw & _); [lia|].
  destruct (H _ _ _ _ _ _ Hw) as [_ ->]. reflexivity.
Defined.

(** ** C4: what a tap reads outside the axis *)



(** ** C5: the 2D dispatch *)

(** C5 fails as stated: the claim puts no condition on the detector
    half-size, and with a detector half-size of 0 the detector filter, which
    both 2D branches call, selects position [-1] of its window: on the row
    [5, 5, 5, 5] the call has no defined result, for angle half-size 0 and
    for angle half-size 1.  It has none either for a negative angle
    half-size. *)
Lemma C5_counterexample :
  det2D_median row_5555 0 (2 * 0 + 1) 1 4 0 0 = None
  ∧ RingWeights_main row_5555 (calloc 4) 0 0 0 1 4 1 = None
  ∧ RingWeights_main row_5555 (calloc 4) 0 1 0 1 4 1 = None
  ∧ RingWeights_main row_5555 (calloc 4) 1 (-1) 0 1 4 1 = None
  ∧ ¬ ∃ r W,
        RingWeights_main row_5555 (calloc 4) 0 0 0 1 4 1 = Some (r, W)
        ∧ ∀ i j, 0 ≤ i < 1 → 0 ≤ j < 4 →
            ∃ x d, load row_5555 (i * 4 + j) = Some x
                 ∧ det2D_median row_5555 0 (2 * 0 + 1) 1 4 j i = Some d
                 ∧ load W (i * 4 + j) = Some (fsub x d).
Proof.
  assert (RingWeights_main row_5555 (calloc 4) 0 0 0 1 4 1 = None) as H
    by (vm_compute; reflexivity).
  split; [vm_compute; reflexivity|].
  split; [exact H|].
  split; [vm_compute; reflexivity|].
  split; [vm_compute; reflexivity|].
  intros (r & W & Hr & _). rewrite H in Hr. discriminate.
Qed.

(** C5 (as amended).  In the 2D path ([slices = 1]), for a detector
    half-size of at least 1 and a non-negative angle half-size (window sizes
    that are [int]s: half-sizes below 2^30), the call returns and has
    written, at every cell, [residual - DetectorMedian(residual)] when the
    angle half-size is zero, and [AngleMedian(residual) -
    DetectorMedian(residual)] otherwise, both medians being taken of the
    residual itself. *)
Theorem C5_dispatch_2D (residual weights : list float) (hd ha hp A D : Z) :
  1 ≤ A → 1 ≤ D →
  Z.of_nat (length residual) = A * D →
  Z.of_nat (length weights) = A * D →
  1 ≤ hd < 2 ^ 30 → 0 ≤ ha < 2 ^ 30 →
  ∃ r W,
    RingWeights_main residual weights hd ha hp A D 1 = Some (r, W)
    ∧ length W = length weights
    ∧ ∀ i j, 0 ≤ i < A → 0 ≤ j < D →
        ∃ d, det2D_median residual hd (2 * hd + 1) A D j i = Some d
           ∧ (ha = 0 →
              ∃ x, load residual (i * D + j) = Some x
                   ∧ load W (i * D + j) = Some (fsub x d))
           ∧ (ha ≠ 0 →
              ∃ a, angles2D_median residual ha (2 * ha + 1) A D j i
                   = Some a
                   ∧ load W (i * D + j) = Some (fsub a d)).
Proof.
  intros HA HD Hres Hw Hd Ha.
  pose proof (selects_in_window_int hd Hd) as Hsd.
  destruct (decide (ha = 0)) as [->|Hne].
  - destruct (main2D_det residual weights A D HA HD Hres Hw hd hp Hsd)
      as (r & W & Hmain & Hlen & Hcells).
    exists r, W. split; [done|]. split; [done|]. intros i j Hi Hj.
    destruct (Hcells i j Hi Hj) as (x & d & Hx & Hmed & Hload).
    exists d. split; [done|]. split; [eauto|done].
  - assert (selects_in_window ha) as Hsa
      by (apply selects_in_window_int; lia).
    destruct (main2D_angles_det residual weights A D HA HD Hres Hw
                hd ha hp Hsd Hsa) as (r & W & Hmain & Hlen & Hcells).
    exists r, W. split; [done|]. split; [done|]. intros i j Hi Hj.
    destruct (Hcells i j Hi Hj) as (a & d & Hma & Hmd & Hload).
    exists d. split; [done|]. split; [done|eauto].
Qed.

Lemma C5_witness :
  (1 ≤ 1 ∧ 1 ≤ 4 ∧ 1 ≤ 1 < 2 ^ 30)
  ∧ (∃ r W, RingWeights_main row_5555 (calloc 4) 1 0 0 1 4 1 = Some (r, W))
  ∧ (∃ r W, RingWeights_main row_5555 (calloc 4) 1 1 0 1 4 1 = Some (r, W)).
Proof.
  split; [lia|]. split.
  - destruct (C5_dispatch_2D row_5555 (calloc 4) 1 0 0 1 4)
      as (r & W & H & _); try lia; try reflexivity. eauto.
  - destruct (C5_dispatch_2D row_5555 (calloc 4) 1 1 0 1 4)
      as (r & W & H & _); try lia; try reflexivity. eauto.
Defined.

(** ** C6: the three-way combination *)

(** C6.  In the 3D path with the three half-sizes all non-zero, a call that
    returns has written, at every cell,
    [AngleMedian(residual) - 0.5 * (ProjectionMedian(residual) +
    DetectorMedian(residual))], each median taken of the residual itself
    along its own axis.  The call does return when the three half-sizes are
    at least 1 (and below 2^30, so that the window sizes are [int]s). *)
Theorem C6_three_way_3D (residual weights : list float)
    (hd ha hp A D S : Z) :
  1 ≤ A → 1 ≤ D → 2 ≤ S →
  Z.of_nat (length residual) = A * D * S →
  Z.of_nat (length weights) = A * D * S →
  ha ≠ 0 → hp ≠ 0 → hd ≠ 0 →
  (1 ≤ ha < 2 ^ 30 → 1 ≤ hp < 2 ^ 30 → 1 ≤ hd < 2 ^ 30 →
   is_Some (RingWeights_main residual weights hd ha hp A D S))
  ∧ ∀ r W,
      RingWeights_main residual weights hd ha hp A D S = Some (r, W) →
      length W = length weights
      ∧ ∀ k i j, 0 ≤ k < S → 0 ≤ i < A → 0 ≤ j < D →
          ∃ a p d,
            angles3D_median residual ha (2 * ha + 1) A D S j i k = Some a
            ∧ proj3D_median residual hp (2 * hp + 1) A D S j i k = Some p
            ∧ det3D_median residual hd (2 * hd + 1) A D S j i k = Some d
            ∧ load W (D * A * k + i * D + j)
              = Some (fsub a (fmul fhalf (fadd p d))).
Proof.
  intros HA HD HS Hres Hw Ha Hp Hd. split.
  - intros Ha1 Hp1 Hd1.
    destruct (main3D_all residual weights A D S HA HD HS Hres Hw hd ha hp
                (selects_in_window_int hd Hd1) (selects_in_window_int ha Ha1)
                (selects_in_window_int hp Hp1)) as (r & W & -> & _).
    eauto.
  - intros r W Hmain.
    destruct (selects_in_window_dec ha) as [Ha1|Ha1];
      [|rewrite main3D_all_undefined in Hmain by (done || tauto); done].
    destruct (selects_in_window_dec hp) as [Hp1|Hp1];
      [|rewrite main3D_all_undefined in Hmain by (done || tauto); done].
    destruct (selects_in_window_dec hd) as [Hd1|Hd1];
      [|rewrite main3D_all_undefined in Hmain by (done || tauto); done].
    destruct (main3D_all residual weights A D S HA HD HS Hres Hw
                hd ha hp Hd1 Ha1 Hp1) as (r' & W' & Hmain' & Hlen & Hcells).
    rewrite Hmain in Hmain'. by simplify_eq.
Qed.

Lemma C6_witness :
  (1 ≤ 2 ∧ 2 ≤ 2 ∧ 1 ≠ 0 ∧ 1 ≤ 1 < 2 ^ 30)
  ∧ is_Some (RingWeights_main volume_2x2x2 (calloc 8) 1 1 1 2 2 2).
Proof.
  split; [lia|].
  apply (C6_three_way_3D volume_2x2x2 (calloc 8) 1 1 1 2 2 2);
    (lia || reflexivity).
Defined.

(** ** C7: non-positive extents *)

(** C7 fails as stated: with [anglesDim = 0] the call returns normally, and
    the value it returns was loaded from the [weights] buffer; with two
    negative extents it even overwrites [weights]. *)
Lemma C7_counterexample :
  RingWeights_main [] [of_Z 7] 1 0 0 0 3 1 = Some (of_Z 7, [of_Z 7])
  ∧ RingWeights_main row_5555 (of_Z <$> [9; 9; 9; 9]) 1 0 0 (-2) (-2) 1
    = Some (of_Z 5, row_5555).
Proof. split; vm_compute; reflexivity. Qed.

(** C7 (as amended).  The core checks no extent and has no error result.
    When some extent is non-positive and the product of the three extents
    is non-positive, every loop nest is empty: no filter is called, the
    [weights] buffer is left as it was, and the call returns [weights[0]]. *)
Theorem C7_no_dimension_check (residual weights : list float)
    (hd ha hp A D S : Z) :
  A ≤ 0 ∨ D ≤ 0 ∨ S ≤ 0 → A * D * S ≤ 0 →
  RingWeights_main residual weights hd ha hp A D S
  = (r ← load weights 0; Some (r, weights)).
Proof.
  intros Hdim Hprod. unfold RingWeights_main. cbv zeta.
  destruct (Z.eqb_spec S 1) as [->|HS].
  - assert (A ≤ 0 ∨ D ≤ 0) as Hdim2 by lia.
    assert (A * D ≤ 0) as Hprod2 by lia.
    rewrite !(pass2D_empty _ A D) by done.
    unfold sub_loop, sub_loop_inplace.
    destruct (ha =? 0); cbn [mbind option_bind];
      rewrite ?(pass2D_empty _ A D) by done; cbn [mbind option_bind];
      by rewrite for_range_empty by lia.
  - unfold sub_loop, half_loop, half_loop_inplace.
    destruct (cond_proj_only hd ha hp), (cond_det_only hd ha hp),
      (cond_all hd ha hp), (cond_angles_proj hd ha hp),
      (cond_angles_det hd ha hp), (cond_proj_det hd ha hp);
      repeat (rewrite ?(pass3D_empty _ A D S) by done;
              rewrite ?for_range_empty by lia;
              cbn [mbind option_bind]);
      done.
Qed.

Lemma C7_witness :
  ((0 ≤ 0 ∨ 3 ≤ 0 ∨ 1 ≤ 0) ∧ 0 * 3 * 1 ≤ 0)
  ∧ RingWeights_main [] [of_Z 7] 1 0 0 0 3 1 = Some (of_Z 7, [of_Z 7]).
Proof.
  split; [lia|].
  rewrite (C7_no_dimension_check [] [of_Z 7] 1 0 0 0 3 1); [reflexivity|lia|lia].
Defined.

(** ** C8: which window positions a filter touches *)

(** C8 fails as stated: the selected position is not [h - 1] for every
    [h >= 1].  For the half-size 8388609 the window size 16777219 is rounded
    when it is converted to [float], [0.5f*full_window] is 8388610, and the
    position the filter reads is [h] itself. *)
Lemma C8_counterexample :
  midval (2 * 8388609 + 1) = Some 8388609
  ∧ midval (2 * 8388609 + 1) ≠ Some (8388609 - 1)
  ∧ (∀ src axisLen pos index nb,
       axis_median src 8388609 (2 * 8388609 + 1) axisLen pos index nb
       = w ← window src 8388609 axisLen pos index nb;
         load (sort_window fgt w) 8388609).
Proof.
  split; [apply midval_beyond_range|].
  split; [rewrite midval_beyond_range; discriminate|].
  apply axis_median_beyond_range.
Qed.

(** C8 (as amended).  With a half-size [h >= 1] whose window size is an
    [int] ([h < 2^30]) the selected position [midval] lies inside the
    [2h+1]-sample window, and it is [h - 1] as long as the window has fewer
    than 2^24 samples; a filter fails only if one of its reads of the source
    buffer does: every access to the window itself is in bounds.  With
    half-size 0 the selected position is [-1]: each of the five filters then
    has no defined result, and so has every dispatch that calls one, such as
    the 2D path with [angleHalf = 0] and [detectorHalf = 0]. *)
Theorem C8_window_access (src dst : list float)
    (h axisLen pos index A D S j i k : Z) (nb : Z → Z) :
  1 ≤ h < 2 ^ 30 → 1 ≤ A → 1 ≤ D →
  (∃ m, midval (2 * h + 1) = Some m ∧ 0 ≤ m < 2 * h + 1)
  ∧ (h < 2 ^ 23 → midval (2 * h + 1) = Some (h - 1))
  ∧ (is_Some (axis_median src h (2 * h + 1) axisLen pos index nb)
     ↔ is_Some (window src h axisLen pos index nb))
  ∧ midval (2 * 0 + 1) = Some (-1)
  ∧ axis_median src 0 (2 * 0 + 1) axisLen pos index nb = None
  ∧ RingWeights_det2D src dst 0 (2 * 0 + 1) A D j i = None
  ∧ RingWeights_angles2D src dst 0 (2 * 0 + 1) A D j i = None
  ∧ RingWeights_proj3D src dst 0 (2 * 0 + 1) A D S j i k = None
  ∧ RingWeights_det3D src dst 0 (2 * 0 + 1) A D S j i k = None
  ∧ RingWeights_angles3D src dst 0 (2 * 0 + 1) A D S j i k = None
  ∧ (∀ hp, RingWeights_main src dst 0 0 hp A D 1 = None).
Proof.
  intros Hh HA HD.
  destruct (selects_in_window_int h Hh) as (m & Hm & Hr).
  split; [by exists m|].
  split; [intros; apply midval_exact; lia|].
  split.
  { rewrite axis_median_sorted_window, Hm by lia. cbn [mbind option_bind].
    destruct (window src h axisLen pos index nb) as [w|] eqn:Hw;
      cbn [mbind option_bind]; [|done].
    split; [eauto|]. intros _. apply load_is_Some.
    rewrite sort_window_length.
    assert (0 ≤ h) as Hh0 by lia.
    rewrite (window_length _ _ _ _ _ _ _ Hh0 Hw). lia. }
  split; [apply midval_one|].
  split; [by apply axis_median_nonpos|].
  split; [by apply det2D_nonpos|].
  split; [by apply angles2D_nonpos|].
  split; [by apply proj3D_nonpos|].
  split; [by apply det3D_nonpos|].
  split; [by apply angles3D_nonpos|].
  intros hp. by apply main2D_det_undefined.
Qed.

Lemma C8_witness :
  (1 ≤ 2 < 2 ^ 30 ∧ 1 ≤ 1 ∧ 1 ≤ 4)
  ∧ midval (2 * 2 + 1) = Some (2 - 1)
  ∧ RingWeights_main row_5555 (calloc 4) 0 0 0 1 4 1 = None.
Proof.
  split; [lia|].
  destruct (C8_window_access row_5555 (calloc 4) 2 4 0 0 1 4 1 0 0 0 id)
    as (_ & H1 & _ & _ & _ & _ & _ & _ & _ & _ & H2); [lia..|].
  split; [apply H1; lia|exact (H2 0)].
Defined.

(** ** C9: constant volumes *)





(** ** C10: angle window only, in 3D *)

(** C10.  In the 3D path ([slices <> 1]) with a non-zero angle half-size and
    zero projection and detector half-sizes, none of the six block
    conditions holds, and the call leaves [weights] exactly as it was: it
    only returns [weights[0]]. *)
Theorem C10_angle_only_3D_untouched (residual weights : list float)
    (ha A D S : Z) :
  ha ≠ 0 → S ≠ 1 →
  cond_proj_only 0 ha 0 = false ∧ cond_det_only 0 ha 0 = false
  ∧ cond_all 0 ha 0 = false ∧ cond_angles_proj 0 ha 0 = false
  ∧ cond_angles_det 0 ha 0 = false ∧ cond_proj_det 0 ha 0 = false
  ∧ RingWeights_main residual weights 0 ha 0 A D S
    = (r ← load weights 0; Some (r, weights)).
Proof.
  intros Ha HS.
  assert ((ha =? 0) = false) as Hha by (apply Z.eqb_neq; lia).
  assert ((S =? 1) = false) as HS1 by (apply Z.eqb_neq; lia).
  unfold RingWeights_main, cond_proj_only, cond_det_only, cond_all,
    cond_angles_proj, cond_angles_det, cond_proj_det.
  cbv zeta. rewrite Hha, HS1. rewrite Z.eqb_refl. cbn [andb negb].
  repeat split; done.
Qed.

Lemma C10_witness :
  (2 ≠ 0 ∧ 2 ≠ 1)
  ∧ RingWeights_main volume_1x3x2 sevens_6 0 2 0 1 3 2
    = Some (of_Z 7, sevens_6).
Proof.
  split; [lia|].
  destruct (C10_angle_only_3D_untouched volume_1x3x2 sevens_6 2 1 3 2)
    as (_ & _ & _ & _ & _ & _ & H); [lia|lia|].
  rewrite H. reflexivity.
Defined.

(** * Further properties of the code *)

(** ** [swap] *)

Lemma load_ext {A} (v w : list A) :
  length v = length w → (∀ p, load v p = load w p) → v = w.
Proof.
  intros Hlen Hload. apply list_eq. intros n.
  rewrite <- !load_nat. apply Hload.
Qed.

Lemma store_frame {A} (buf buf' : list A) (p : Z) (v : A) :
  store buf p v = Some buf' →
  length buf' = length buf
  ∧ load buf' p = Some v
  ∧ ∀ q, q ≠ p → load buf' q = load buf q.
Proof.
  unfold store.
  destruct (Z.leb_spec 0 p), (Z.ltb_spec p (Z.of_nat (length buf)));
    simpl; try done.
  intros [= <-]. split; [apply length_insert|].
  split; [by apply load_insert_eq|].
  intros q Hq. by apply load_insert_ne.
Qed.

Lemma swap_is_Some {A} (v : list A) (x y : Z) :
  is_Some (swap v x y)
  ↔ 0 ≤ x < Z.of_nat (length v) ∧ 0 ≤ y < Z.of_nat (length v).
Proof.
  unfold swap. split.
  - intros [v' Hs].
    apply bind_Some in Hs as (a & Ha & Hs).
    apply bind_Some in Hs as (b & Hb & _).
    split; apply load_is_Some; eauto.
  - intros [Hx Hy].
    destruct (proj2 (load_is_Some v x) Hx) as [a ->].
    destruct (proj2 (load_is_Some v y) Hy) as [b ->].
    cbn [mbind option_bind]. rewrite store_in by done.
    cbn [mbind option_bind]. rewrite store_in by (rewrite length_insert; lia).
    eauto.
Qed.

Lemma swap_frame {A} (v v' : list A) (x y : Z) :
  swap v x y = Some v' →
  length v' = length v
  ∧ load v' x = load v y
  ∧ load v' y = load v x
  ∧ ∀ p, p ≠ x → p ≠ y → load v' p = load v p.
Proof.
  intros Hs. unfold swap in Hs.
  apply bind_Some in Hs as (a & Ha & Hs).
  apply bind_Some in Hs as (b & Hb & Hs).
  apply bind_Some in Hs as (v1 & H1 & H2).
  apply store_frame in H1 as (Hl1 & Hx1 & Hk1).
  apply store_frame in H2 as (Hl2 & Hy2 & Hk2).
  split; [congruence|]. rewrite Ha, Hb.
  split; [|split; [done|]].
  - destruct (decide (x = y)) as [->|Hne]; [congruence|].
    by rewrite Hk2, Hx1.
  - intros p Hpx Hpy. by rewrite Hk2, Hk1.
Qed.

(** X1.  [swap] on two cells inside the buffer exchanges their contents and
    touches nothing else; it has a result exactly when both cells are inside
    the buffer. *)
Theorem X1_swap_exchanges {A} (v : list A) (x y : Z) :
  (is_Some (swap v x y)
   ↔ 0 ≤ x < Z.of_nat (length v) ∧ 0 ≤ y < Z.of_nat (length v))
  ∧ ∀ v', swap v x y = Some v' →
      length v' = length v
      ∧ load v' x = load v y
      ∧ load v' y = load v x
      ∧ ∀ p, p ≠ x → p ≠ y → load v' p = load v p.
Proof. split; [apply swap_is_Some|intros v'; apply swap_frame]. Qed.

Lemma X1_witness :
  swap row_10_1_1 0 2 = Some (of_Z <$> [1; 1; 10])
  ∧ load (of_Z <$> [1; 1; 10]) 0 = load row_10_1_1 2.
Proof.
  assert (swap row_10_1_1 0 2 = Some (of_Z <$> [1; 1; 10])) as H
    by reflexivity.
  split; [exact H|].
  destruct (X1_swap_exchanges row_10_1_1 0 2) as [_ Hx].
  by destruct (Hx _ H) as (_ & ? & _).
Defined.

(** X2.  Swapping the same two cells twice gives the buffer back. *)
Theorem X2_swap_involutive {A} (v v' : list A) (x y : Z) :
  swap v x y = Some v' → swap v' x y = Some v.
Proof.
  intros Hs.
  destruct (swap_frame v v' x y Hs) as (Hlen & Hlx & Hly & Hother).
  assert (is_Some (swap v' x y)) as [v'' Hs'].
  { apply swap_is_Some. rewrite Hlen. apply swap_is_Some. eauto. }
  rewrite Hs'. f_equal.
  destruct (swap_frame v' v'' x y Hs') as (Hlen' & Hlx' & Hly' & Hother').
  apply load_ext; [congruence|]. intros p.
  destruct (decide (p = x)) as [->|Hpx]; [congruence|].
  destruct (decide (p = y)) as [->|Hpy]; [congruence|].
  by rewrite Hother', Hother.
Qed.

Lemma X2_witness :
  swap row_10_1_1 0 2 = Some (of_Z <$> [1; 1; 10])
  ∧ swap (of_Z <$> [1; 1; 10]) 0 2 = Some row_10_1_1.
Proof.
  assert (swap row_10_1_1 0 2 = Some (of_Z <$> [1; 1; 10])) as H
    by reflexivity.
  split; [exact H|]. exact (X2_swap_involutive _ _ 0 2 H).
Defined.

(** ** The sort, once more *)

Section SortedInput.
Context {A : Type} (gt : A → A → bool) (R : A → A → Prop).
Hypothesis R_not_gt : ∀ a b, R a b → gt a b = false.

Lemma bubble_sorted (n : nat) (l : list A) :
  Sorted R l → bubble gt n l = l.
Proof.
  revert l. induction n as [|n IH]; intros l Hs; [by destruct l|].
  destruct l as [|a [|b t]]; [done..|].
  apply Sorted_inv in Hs as [Hs Hd]. apply HdRel_inv in Hd.
  cbn [bubble]. rewrite (R_not_gt a b Hd). f_equal. by apply IH.
Qed.

Lemma sort_window_sorted_id (l : list A) :
  Sorted R l → sort_window gt l = l.
Proof.
  intros Hs. unfold sort_window. generalize (length l - 1)%nat. intros n.
  induction n as [|n IH]; cbn [bubble_passes]; [done|].
  by rewrite bubble_sorted.
Qed.
End SortedInput.

Lemma fle_not_fgt (a b : float) : fle a b → fgt a b = false.
Proof.
  unfold fle, fgt, SFleb, SFltb. rewrite (SFcompare_antisym a b).
  by destruct (SFcompare a b) as [[]|].
Qed.

(** X3.  The sort leaves an ascending window as it is, so sorting twice is
    sorting once (for windows without NaN, where the first sort is
    ascending). *)
Theorem X3_sort_idempotent (w : list float) :
  (StronglySorted fle w → bubble_sort fgt w (Z.of_nat (length w)) = Some w)
  ∧ (Forall (λ x, is_nan x = false) w →
     ∀ w', bubble_sort fgt w (Z.of_nat (length w)) = Some w' →
           bubble_sort fgt w' (Z.of_nat (length w')) = Some w').
Proof.
  assert (∀ l : list float, StronglySorted fle l →
            bubble_sort fgt l (Z.of_nat (length l)) = Some l) as Hid.
  { intros l Hl. rewrite bubble_sort_sort_window. f_equal.
    apply (sort_window_sorted_id fgt fle fle_not_fgt).
    by apply StronglySorted_Sorted. }
  split; [apply Hid|].
  intros Hnan w' Hw'. rewrite bubble_sort_sort_window in Hw'.
  injection Hw' as <-. apply Hid. by apply sort_window_ascending.
Qed.

Lemma X3_witness :
  bubble_sort fgt (of_Z <$> [4; 1; 5; 2; 3]) 5 = Some row_1_to_5
  ∧ bubble_sort fgt row_1_to_5 5 = Some row_1_to_5.
Proof.
  assert (bubble_sort fgt (of_Z <$> [4; 1; 5; 2; 3]) 5 = Some row_1_to_5)
    as H by (vm_compute; reflexivity).
  split; [exact H|].
  destruct (X3_sort_idempotent (of_Z <$> [4; 1; 5; 2; 3])) as [_ Hx].
  apply (Hx ltac:(repeat constructor) row_1_to_5 H).
Defined.

(** ** What value a filter stores *)

Lemma window_elem_tap (src : list float) (h axisLen pos index : Z)
    (nb : Z → Z) (w : list float) (m : float) :
  0 ≤ h → window src h axisLen pos index nb = Some w → m ∈ w →
  ∃ t, - h ≤ t ≤ h ∧ tap src axisLen pos index nb t = Some m.
Proof.
  intros Hh Hw Hm. apply mapM_Some_1 in Hw.
  apply list_elem_of_lookup in Hm as [n Hn].
  destruct (Forall2_lookup_r _ _ _ _ _ Hw Hn) as (t & Ht & Htap).
  apply lookup_seqZ in Ht as [-> Hlt]. exists (- h + Z.of_nat n).
  split; [lia|done].
Qed.

Lemma axis_median_tap (src : list float) (h axisLen pos index : Z)
    (nb : Z → Z) (v : float) :
  0 ≤ h →
  axis_median src h (2 * h + 1) axisLen pos index nb = Some v →
  ∃ t, - h ≤ t ≤ h ∧ tap src axisLen pos index nb t = Some v.
Proof.
  intros Hh. rewrite axis_median_sorted_window by done.
  destruct (midval (2 * h + 1)) as [mid|]; [|done].
  cbn [mbind option_bind].
  destruct (window _ _ _ _ _ _) as [w|] eqn:Hw; [|done].
  cbn [mbind option_bind]. intros Hv.
  apply (window_elem_tap _ _ _ _ _ _ w); [done..|].
  rewrite <- (sort_window_perm fgt w).
  unfold load in Hv. destruct (0 <=? mid); [|done].
  apply list_elem_of_lookup. eauto.
Qed.

Lemma tap_in_source (src : list float) (axisLen pos index : Z) (nb : Z → Z)
    (t : Z) (v : float) :
  tap src axisLen pos index nb t = Some v → ∃ q, load src q = Some v.
Proof. unfold tap. destruct (_ && _); eauto. Qed.

(** X4.  A filter stores one of the samples it gathered: the value is the
    neighbour at some offset [t] in [[-h, h]] when that neighbour lies on
    the axis, and the centre cell otherwise.  In particular each of the five
    filters writes a value that occurs in its source buffer. *)
Theorem X4_filter_stores_a_sample (src dst dst' : list float)
    (h A D S j i k : Z) :
  0 ≤ h →
  (∀ axisLen pos index nb v,
     axis_median src h (2 * h + 1) axisLen pos index nb = Some v →
     ∃ t, - h ≤ t ≤ h
          ∧ (if (0 <=? pos + t) && (pos + t <? axisLen)
             then load src (nb (pos + t)) else load src index) = Some v)
  ∧ (RingWeights_det2D src dst h (2 * h + 1) A D j i = Some dst' →
     ∃ q, load src q = load dst' (i * D + j))
  ∧ (RingWeights_angles2D src dst h (2 * h + 1) A D j i = Some dst' →
     ∃ q, load src q = load dst' (i * D + j))
  ∧ (RingWeights_proj3D src dst h (2 * h + 1) A D S j i k = Some dst' →
     ∃ q, load src q = load dst' (D * A * k + i * D + j))
  ∧ (RingWeights_det3D src dst h (2 * h + 1) A D S j i k = Some dst' →
     ∃ q, load src q = load dst' (D * A * k + i * D + j))
  ∧ (RingWeights_angles3D src dst h (2 * h + 1) A D S j i k = Some dst' →
     ∃ q, load src q = load dst' (D * A * k + i * D + j)).
Proof.
  intros Hh.
  assert (∀ axisLen pos index nb p,
            (v ← axis_median src h (2 * h + 1) axisLen pos index nb;
             store dst p v) = Some dst' →
            ∃ q, load src q = load dst' p) as Hbody.
  { intros axisLen pos index nb p Hrun.
    apply bind_Some in Hrun as (v & Hv & Hst).
    apply store_frame in Hst as (_ & -> & _).
    destruct (axis_median_tap _ _ _ _ _ _ _ Hh Hv) as (t & _ & Ht).
    by apply tap_in_source in Ht. }
  split; [intros; by apply axis_median_tap|].
  repeat split; apply Hbody.
Qed.

Lemma X4_witness :
  0 ≤ 1
  ∧ ∃ q, load row_10_1_1 q = load [of_Z 1; fzero; fzero] (0 * 3 + 0).
Proof.
  split; [lia|].
  destruct (X4_filter_stores_a_sample row_10_1_1 (calloc 3)
              [of_Z 1; fzero; fzero] 1 1 3 1 0 0 0) as (_ & H & _); [lia|].
  apply H. vm_compute. reflexivity.
Defined.

(** X5.  With half-size [h >= 1], a window of fewer than 2^24 samples and no
    NaN among them, the stored value is the [h]-th smallest sample: the
    window splits into [h - 1] samples not above it and [h + 1] samples not
    below it.  So it is never above the middle sample of the window. *)
Theorem X5_stored_value_rank (src : list float) (h axisLen pos index : Z)
    (nb : Z → Z) (w : list float) (v : float) :
  1 ≤ h < 2 ^ 23 →
  window src h axisLen pos index nb = Some w →
  Forall (λ x, is_nan x = false) w →
  axis_median src h (2 * h + 1) axisLen pos index nb = Some v →
  ∃ lo hi, w ≡ₚ lo ++ v :: hi
           ∧ Z.of_nat (length lo) = h - 1
           ∧ Z.of_nat (length hi) = h + 1
           ∧ Forall (λ x, fle x v) lo
           ∧ Forall (fle v) hi.
Proof.
  intros Hh Hw Hnan Hv.
  rewrite axis_median_sorted_window_exact in Hv by lia. rewrite Hw in Hv.
  cbn [mbind option_bind] in Hv.
  pose proof (sort_window_ascending w Hnan) as Hsorted.
  pose proof (sort_window_perm fgt w) as Hperm.
  pose proof (sort_window_length fgt w) as Hlen.
  assert (0 ≤ h) as Hh0 by lia.
  pose proof (window_length _ _ _ _ _ _ _ Hh0 Hw) as Hwl.
  unfold load in Hv. destruct (Z.leb_spec 0 (h - 1)); [|lia].
  set (n := Z.to_nat (h - 1)) in *.
  pose proof (take_drop_middle _ _ _ Hv) as Hsplit.
  exists (take n (sort_window fgt w)), (drop (S n) (sort_window fgt w)).
  rewrite <- Hsplit in Hsorted.
  apply StronglySorted_app in Hsorted as (Hcross & _ & Hhi).
  apply StronglySorted_cons in Hhi as [Hhi _].
  split; [by rewrite Hsplit|].
  split; [rewrite length_take; lia|].
  split; [rewrite length_drop; lia|].
  split; [|done].
  apply Forall_forall. intros x Hx. apply Hcross; [done|left].
Qed.

Lemma X5_witness :
  1 ≤ 2 < 2 ^ 23
  ∧ ∃ lo hi, row_1_to_5 ≡ₚ lo ++ of_Z 2 :: hi
             ∧ Z.of_nat (length lo) = 2 - 1
             ∧ Z.of_nat (length hi) = 2 + 1
             ∧ Forall (λ x, fle x (of_Z 2)) lo
             ∧ Forall (fle (of_Z 2)) hi.
Proof.
  split; [lia|].
  apply (X5_stored_value_rank row_1_to_5 2 5 2 2 (λ j1, 0 * 5 + j1));
    [lia|reflexivity|repeat constructor|reflexivity].
Defined.

(** ** What a filter call writes *)

(** X6.  A filter call that returns has written exactly one cell of its
    destination buffer, the cell at the flat index of its coordinates; every
    other cell and the length of the buffer are as before. *)
Theorem X6_filter_writes_one_cell (src dst dst' : list float)
    (h fw A D S j i k : Z) :
  (RingWeights_det2D src dst h fw A D j i = Some dst' →
   length dst' = length dst
   ∧ load dst' (i * D + j) = det2D_median src h fw A D j i
   ∧ ∀ q, q ≠ i * D + j → load dst' q = load dst q)
  ∧ (RingWeights_angles2D src dst h fw A D j i = Some dst' →
     length dst' = length dst
     ∧ load dst' (i * D + j) = angles2D_median src h fw A D j i
     ∧ ∀ q, q ≠ i * D + j → load dst' q = load dst q)
  ∧ (RingWeights_proj3D src dst h fw A D S j i k = Some dst' →
     length dst' = length dst
     ∧ load dst' (D * A * k + i * D + j)
       = proj3D_median src h fw A D S j i k
     ∧ ∀ q, q ≠ D * A * k + i * D + j → load dst' q = load dst q)
  ∧ (RingWeights_det3D src dst h fw A D S j i k = Some dst' →
     length dst' = length dst
     ∧ load dst' (D * A * k + i * D + j)
       = det3D_median src h fw A D S j i k
     ∧ ∀ q, q ≠ D * A * k + i * D + j → load dst' q = load dst q)
  ∧ (RingWeights_angles3D src dst h fw A D S j i k = Some dst' →
     length dst' = length dst
     ∧ load dst' (D * A * k + i * D + j)
       = angles3D_median src h fw A D S j i k
     ∧ ∀ q, q ≠ D * A * k + i * D + j → load dst' q = load dst q).
Proof.
  assert (∀ (m : option float) (p : Z),
            (v ← m; store dst p v) = Some dst' →
            length dst' = length dst
            ∧ load dst' p = m
            ∧ ∀ q, q ≠ p → load dst' q = load dst q) as Hbody.
  { intros m p Hrun. apply bind_Some in Hrun as (v & -> & Hst).
    by apply store_frame in Hst. }
  split; [apply Hbody|]. split; [apply Hbody|]. split; [apply Hbody|].
  split; apply Hbody.
Qed.

Lemma X6_witness :
  RingWeights_det2D row_10_1_1 sevens_6 1 3 1 3 0 0
  = Some (of_Z <$> [1; 7; 7; 7; 7; 7])
  ∧ length (of_Z <$> [1; 7; 7; 7; 7; 7]) = length sevens_6.
Proof.
  assert (RingWeights_det2D row_10_1_1 sevens_6 1 3 1 3 0 0
          = Some (of_Z <$> [1; 7; 7; 7; 7; 7])) as H
    by (vm_compute; reflexivity).
  split; [exact H|].
  destruct (X6_filter_writes_one_cell row_10_1_1 sevens_6
              (of_Z <$> [1; 7; 7; 7; 7; 7]) 1 3 1 3 1 0 0 0) as (Hx & _).
  by destruct (Hx H) as (? & _).
Defined.

(** X7.  With a negative half-size the gathering loop does not run, the
    window buffer has no cell, and the read of the selected position is
    outside it: none of the five filters has a defined result, and neither
    has a 2D call whose detector half-size is negative. *)
Theorem X7_negative_half_size (src dst : list float)
    (h axisLen pos index A D S j i k : Z) (nb : Z → Z) :
  h < 0 →
  gather src h axisLen pos index nb (calloc (2 * h + 1)) = Some ([], 0)
  ∧ RingWeights_det2D src dst h (2 * h + 1) A D j i = None
  ∧ RingWeights_angles2D src dst h (2 * h + 1) A D j i = None
  ∧ RingWeights_proj3D src dst h (2 * h + 1) A D S j i k = None
  ∧ RingWeights_det3D src dst h (2 * h + 1) A D S j i k = None
  ∧ RingWeights_angles3D src dst h (2 * h + 1) A D S j i k = None
  ∧ (1 ≤ A → 1 ≤ D → ∀ hp, RingWeights_main src dst h 0 hp A D 1 = None).
Proof.
  intros Hh. split.
  { unfold gather. rewrite for_range_empty by lia. unfold calloc.
    by replace (Z.to_nat (2 * h + 1)) with 0%nat by lia. }
  split; [apply det2D_nonpos; lia|].
  split; [apply angles2D_nonpos; lia|].
  split; [apply proj3D_nonpos; lia|].
  split; [apply det3D_nonpos; lia|].
  split; [apply angles3D_nonpos; lia|].
  intros HA HD hp. apply main2D_det_undefined; lia.
Qed.

Lemma X7_witness :
  -1 < 0 ∧ RingWeights_det2D row_10_1_1 (calloc 3) (-1) (2 * -1 + 1) 1 3 0 0
           = None.
Proof.
  split; [lia|].
  destruct (X7_negative_half_size row_10_1_1 (calloc 3) (-1) 3 0 0 1 3 1 0 0 0
              (λ j1, 0 * 3 + j1)) as (_ & H & _); [lia|exact H].
Defined.

(** ** The six block conditions *)

(** X8.  For every triple of half-sizes exactly one of the six 3D block
    conditions holds, with two exceptions: when all three are zero two
    conditions hold (projections only and detectors only), and when only the
    angle half-size is non-zero none does. *)
Theorem X8_block_conditions (hd ha hp : Z) :
  blocks_taken hd ha hp
  = if (ha =? 0) && (hp =? 0) && (hd =? 0) then 2
    else if negb (ha =? 0) && (hp =? 0) && (hd =? 0) then 0
    else 1.
Proof.
  unfold blocks_taken, cond_proj_only, cond_det_only, cond_all,
    cond_angles_proj, cond_angles_det, cond_proj_det.
  by destruct (ha =? 0), (hp =? 0), (hd =? 0).
Qed.

(** ** Filters that coincide *)

Lemma axis_median_ext (src src' : list float)
    (h fw axisLen pos index axisLen' pos' index' : Z) (nb nb' : Z → Z) :
  (∀ t, tap src axisLen pos index nb t = tap src' axisLen' pos' index' nb' t) →
  axis_median src h fw axisLen pos index nb
  = axis_median src' h fw axisLen' pos' index' nb'.
Proof.
  intros Htap. unfold axis_median.
  assert (gather src h axisLen pos index nb (calloc fw)
          = gather src' h axisLen' pos' index' nb' (calloc fw)) as ->; [|done].
  unfold gather, for_range. apply for_each_ext. intros t [vv counter] _.
  cbv zeta. pose proof (Htap t) as Ht. unfold tap in Ht. by rewrite Ht.
Qed.

Lemma load_slice_of (residual : list float) (A D k q : Z) :
  0 ≤ k → 0 ≤ q < A * D →
  load (slice_of residual A D k) q = load residual (D * A * k + q).
Proof.
  intros Hk Hq. unfold load, slice_of.
  destruct (Z.leb_spec 0 q); [|lia].
  destruct (Z.leb_spec 0 (D * A * k + q)); [|nia].
  rewrite lookup_take_lt by lia. rewrite lookup_drop. f_equal. nia.
Qed.

Lemma det3D_median_slice (residual : list float) (h fw A D S j i k : Z) :
  0 ≤ k → 0 ≤ i < A → 0 ≤ j < D →
  det3D_median residual h fw A D S j i k
  = det2D_median (slice_of residual A D k) h fw A D j i.
Proof.
  intros Hk Hi Hj. pose proof (index2D_bound A D i j Hi Hj) as Hb.
  apply axis_median_ext. intros t. unfold tap.
  destruct (Z.leb_spec 0 (j + t)), (Z.ltb_spec (j + t) D); simpl;
    rewrite load_slice_of by (lia || nia); f_equal; lia.
Qed.

Lemma angles3D_median_slice (residual : list float)
    (h fw A D S j i k : Z) :
  0 ≤ k → 0 ≤ i < A → 0 ≤ j < D →
  angles3D_median residual h fw A D S j i k
  = angles2D_median (slice_of residual A D k) h fw A D j i.
Proof.
  intros Hk Hi Hj. pose proof (index2D_bound A D i j Hi Hj) as Hb.
  apply axis_median_ext. intros t. unfold tap.
  destruct (Z.leb_spec 0 (i + t)), (Z.ltb_spec (i + t) A); simpl;
    rewrite load_slice_of by (lia || nia); f_equal; lia.
Qed.

(** X9.  Along the detector and angle axes the 3D filters work slice by
    slice: at a cell of slice [k] they compute what the 2D filter computes
    on that slice taken alone. *)
Theorem X9_3D_filters_by_slice (residual : list float)
    (h fw A D S j i k : Z) :
  0 ≤ k → 0 ≤ i < A → 0 ≤ j < D →
  det3D_median residual h fw A D S j i k
  = det2D_median (slice_of residual A D k) h fw A D j i
  ∧ angles3D_median residual h fw A D S j i k
    = angles2D_median (slice_of residual A D k) h fw A D j i.
Proof.
  intros. split; [by apply det3D_median_slice|by apply angles3D_median_slice].
Qed.

Lemma X9_witness :
  (0 ≤ 1 ∧ 0 ≤ 0 < 1 ∧ 0 ≤ 1 < 3)
  ∧ det3D_median volume_1x3x2 1 3 1 3 2 1 0 1
    = det2D_median (of_Z <$> [4; 9; 2]) 1 3 1 3 1 0.
Proof.
  split; [lia|].
  destruct (X9_3D_filters_by_slice volume_1x3x2 1 3 1 3 2 1 0 1) as [H _];
    [lia..|exact H].
Defined.

(** X10.  The projection filter is the 2D angle filter applied to the
    volume read as [slices] rows of [anglesDim * detectorsDim] cells: the
    two compute the same value and make the same store, for all
    arguments. *)
Theorem X10_projection_as_angles (residual dst : list float)
    (h fw A D S j i k : Z) :
  proj3D_median residual h fw A D S j i k
  = angles2D_median residual h fw S (A * D) (i * D + j) k
  ∧ RingWeights_proj3D residual dst h fw A D S j i k
    = RingWeights_angles2D residual dst h fw S (A * D) (i * D + j) k.
Proof.
  assert (proj3D_median residual h fw A D S j i k
          = angles2D_median residual h fw S (A * D) (i * D + j) k) as Hm.
  { apply axis_median_ext. intros t. unfold tap.
    destruct ((0 <=? k + t) && (k + t <? S)); f_equal; lia. }
  split; [done|].
  unfold RingWeights_proj3D, RingWeights_angles2D. rewrite Hm.
  by replace (k * (A * D) + (i * D + j)) with (D * A * k + i * D + j) by lia.
Qed.

(** ** The shape of the output *)

Lemma for_each_invariant {X S} (P : S → Prop) (xs : list X)
    (body : X → S → option S) (s s' : S) :
  (∀ x t t', body x t = Some t' → P t → P t') →
  P s → for_each xs body s = Some s' → P s'.
Proof.
  intros Hstep. revert s. induction xs as [|x xs IH]; intros s Hs Hrun.
  - by injection Hrun as <-.
  - simpl in Hrun. destruct (body x s) as [t|] eqn:Hb; [|done].
    eapply IH; [|done]. by eapply Hstep.
Qed.

Lemma store_length {A} (buf buf' : list A) (p : Z) (v : A) :
  store buf p v = Some buf' → length buf' = length buf.
Proof. intros H. by apply store_frame in H as (? & _). Qed.

Lemma pass2D_length (f : Z → Z → list float → option (list float))
    (A D : Z) (dst dst' : list float) :
  (∀ j i d d', f j i d = Some d' → length d' = length d) →
  pass2D f A D dst = Some dst' → length dst' = length dst.
Proof.
  intros Hf. unfold pass2D, for_range.
  apply (for_each_invariant (λ d, length d = length dst)); [|done].
  intros i t t' Hrow Ht. rewrite <- Ht. revert Hrow.
  apply (for_each_invariant (λ d, length d = length t)); [|done].
  intros j u u' Hcell Hu. rewrite <- Hu. by eapply Hf.
Qed.

Lemma pass3D_length (f : Z → Z → Z → list float → option (list float))
    (A D S : Z) (dst dst' : list float) :
  (∀ j i k d d', f j i k d = Some d' → length d' = length d) →
  pass3D f A D S dst = Some dst' → length dst' = length dst.
Proof.
  intros Hf. unfold pass3D, for_range.
  apply (for_each_invariant (λ d, length d = length dst)); [|done].
  intros k t t' Hslice Ht. rewrite <- Ht. revert Hslice.
  apply (for_each_invariant (λ d, length d = length t)); [|done].
  intros i u u' Hrow Hu. rewrite <- Hu. revert Hrow.
  apply (for_each_invariant (λ d, length d = length u)); [|done].
  intros j v v' Hcell Hv. rewrite <- Hv. by eapply Hf.
Qed.

Lemma filter_body_length (m : option float) (p : Z) (d d' : list float) :
  (v ← m; store d p v) = Some d' → length d' = length d.
Proof.
  intros H. apply bind_Some in H as (v & _ & H). by apply store_length in H.
Qed.

Lemma combination_loop_length (n : Z)
    (val : Z → list float → option float) (w w' : list float) :
  for_range 0 n (λ i w, v ← val i w; store w i v) w = Some w' →
  length w' = length w.
Proof.
  unfold for_range.
  apply (for_each_invariant (λ d, length d = length w)); [|done].
  intros i t t' Hstep Ht. rewrite <- Ht. by eapply filter_body_length.
Qed.

Lemma sub_loop_length (n : Z) (a b w w' : list float) :
  sub_loop n a b w = Some w' → length w' = length w.
Proof.
  intros H.
  apply (combination_loop_length n
           (λ i _, x ← load a i; y ← load b i; Some (fsub x y))).
  rewrite <- H. unfold sub_loop, for_range. apply for_each_ext.
  intros p d _. destruct (load a p); [|done]. by destruct (load b p).
Qed.

Lemma sub_loop_inplace_length (n : Z) (a w w' : list float) :
  sub_loop_inplace n a w = Some w' → length w' = length w.
Proof.
  intros H.
  apply (combination_loop_length n
           (λ i d, x ← load a i; y ← load d i; Some (fsub x y))).
  rewrite <- H. unfold sub_loop_inplace, for_range. apply for_each_ext.
  intros p d _. destruct (load a p); [|done]. by destruct (load d p).
Qed.

Lemma half_loop_length (n : Z) (a b c w w' : list float) :
  half_loop n a b c w = Some w' → length w' = length w.
Proof.
  intros H.
  apply (combination_loop_length n
           (λ i _, x ← load a i; y ← load b i; z ← load c i;
                   Some (fsub x (fmul fhalf (fadd y z))))).
  rewrite <- H. unfold half_loop, for_range. apply for_each_ext.
  intros p d _. destruct (load a p); [|done].
  destruct (load b p); [|done]. by destruct (load c p).
Qed.

Lemma half_loop_inplace_length (n : Z) (a b w w' : list float) :
  half_loop_inplace n a b w = Some w' → length w' = length w.
Proof.
  intros H.
  apply (combination_loop_length n
           (λ i d, x ← load a i; y ← load b i; z ← load d i;
                   Some (fsub x (fmul fhalf (fadd y z))))).
  rewrite <- H. unfold half_loop_inplace, for_range. apply for_each_ext.
  intros p d _. destruct (load a p); [|done].
  destruct (load b p); [|done]. by destruct (load d p).
Qed.

(** Turning each completed step of a returning call into the length of the
    buffer it produced. *)
Ltac track_lengths :=
  repeat match goal with
    | H : pass2D _ _ _ _ = Some _ |- _ =>
        apply pass2D_length in H;
        [|intros ? ? ? ?; apply filter_body_length]
    | H : pass3D _ _ _ _ _ = Some _ |- _ =>
        apply pass3D_length in H;
        [|intros ? ? ? ? ?; apply filter_body_length]
    | H : sub_loop _ _ _ _ = Some _ |- _ => apply sub_loop_length in H
    | H : sub_loop_inplace _ _ _ = Some _ |- _ =>
        apply sub_loop_inplace_length in H
    | H : half_loop _ _ _ _ _ = Some _ |- _ => apply half_loop_length in H
    | H : half_loop_inplace _ _ _ _ = Some _ |- _ =>
        apply half_loop_inplace_length in H
    end.

(** X11.  Whatever the arguments, a call that returns hands back a weights
    buffer of the length it was given, and the float it returns is the
    first cell of that buffer. *)
Theorem X11_output_shape (residual weights : list float)
    (hd ha hp A D S : Z) (r : float) (W : list float) :
  RingWeights_main residual weights hd ha hp A D S = Some (r, W) →
  length W = length weights ∧ load W 0 = Some r.
Proof.
  intros Hmain. split; [|by eapply main_returns_first].
  unfold RingWeights_main in Hmain. cbv zeta in Hmain.
  apply bind_Some in Hmain as (W' & Hbody & Hret).
  apply bind_Some in Hret as (r' & _ & Hret). injection Hret as -> ->.
  destruct (S =? 1).
  - destruct (ha =? 0); simplify_option_eq; track_lengths; congruence.
  - destruct (cond_proj_only hd ha hp), (cond_det_only hd ha hp),
      (cond_all hd ha hp), (cond_angles_proj hd ha hp),
      (cond_angles_det hd ha hp), (cond_proj_det hd ha hp);
      simplify_option_eq; track_lengths; congruence.
Qed.

Lemma X11_witness :
  RingWeights_main volume_1x3x2 sevens_6 1 0 0 1 3 2
  = Some (of_Z 9, of_Z <$> [9; 0; 0; 0; 7; 0])
  ∧ length (of_Z <$> [9; 0; 0; 0; 7; 0]) = length sevens_6.
Proof.
  assert (RingWeights_main volume_1x3x2 sevens_6 1 0 0 1 3 2
          = Some (of_Z 9, of_Z <$> [9; 0; 0; 0; 7; 0])) as H
    by (vm_compute; reflexivity).
  split; [exact H|].
  by destruct (X11_output_shape _ _ _ _ _ _ _ _ _ _ H) as [? _].
Defined.

(** ** What the output does not depend on *)

Lemma buffers_equal_cells (W1 W2 : list float) (A D S : Z) :
  1 ≤ A → 1 ≤ D →
  Z.of_nat (length W1) = A * D * S → Z.of_nat (length W2) = A * D * S →
  (∀ k i j, 0 ≤ k < S → 0 ≤ i < A → 0 ≤ j < D →
            load W1 (D * A * k + i * D + j)
            = load W2 (D * A * k + i * D + j)) →
  W1 = W2.
Proof.
  intros HA HD H1 H2 Hcells. apply load_ext; [lia|]. intros p.
  destruct (decide (0 ≤ p < A * D * S)) as [Hp|Hp].
  - destruct (flat_index_cell A D S p HA HD Hp)
      as (k & i & j & ? & ? & ? & ->). by apply Hcells.
  - destruct (decide (p < 0)).
    + by rewrite !load_neg.
    + by rewrite !load_ge by lia.
Qed.

Lemma main_results_equal (residual w1 w2 : list float)
    (hd ha hp A D S hd' ha' hp' : Z) (r1 r2 : float) (W : list float) :
  RingWeights_main residual w1 hd ha hp A D S = Some (r1, W) →
  RingWeights_main residual w2 hd' ha' hp' A D S = Some (r2, W) →
  RingWeights_main residual w1 hd ha hp A D S
  = RingWeights_main residual w2 hd' ha' hp' A D S.
Proof.
  intros H1 H2. rewrite H1, H2.
  apply main_returns_first in H1, H2. congruence.
Qed.

Ltac open_cells :=
  repeat match goal with
    | H : ∃ _, _ |- _ => destruct H as [? H]
    | H : _ ∧ _ |- _ => destruct H as [? ?]
    end.

(** X12.  Whenever a combination branch runs with every filter it calls at
    half-size 1 or more (and below 2^30, so that the window sizes are
    [int]s), the call returns and its result does not depend on what the
    weights buffer held before: every cell is overwritten. *)
Theorem X12_initial_weights_irrelevant (residual w1 w2 : list float)
    (hd ha hp A D S : Z) :
  1 ≤ A → 1 ≤ D → 1 ≤ S →
  Z.of_nat (length residual) = A * D * S →
  Z.of_nat (length w1) = A * D * S →
  Z.of_nat (length w2) = A * D * S →
  0 ≤ ha < 2 ^ 30 →
  (S = 1 → 1 ≤ hd < 2 ^ 30) →
  (S ≠ 1 → 0 ≤ hd < 2 ^ 30 ∧ 0 ≤ hp < 2 ^ 30 ∧ (1 ≤ hd ∨ 1 ≤ hp)) →
  is_Some (RingWeights_main residual w1 hd ha hp A D S)
  ∧ RingWeights_main residual w1 hd ha hp A D S
    = RingWeights_main residual w2 hd ha hp A D S.
Proof.
  intros HA HD HS Hres Hw1 Hw2 Ha H2D H3D.
  assert (∀ r1 W1 r2 W2,
            RingWeights_main residual w1 hd ha hp A D S = Some (r1, W1) →
            RingWeights_main residual w2 hd ha hp A D S = Some (r2, W2) →
            length W1 = length w1 → length W2 = length w2 →
            (∀ k i j, 0 ≤ k < S → 0 ≤ i < A → 0 ≤ j < D →
                      load W1 (D * A * k + i * D + j)
                      = load W2 (D * A * k + i * D + j)) →
            is_Some (RingWeights_main residual w1 hd ha hp A D S)
            ∧ RingWeights_main residual w1 hd ha hp A D S
              = RingWeights_main residual w2 hd ha hp A D S) as Hfin.
  { intros r1 W1 r2 W2 H1 H2 Hl1 Hl2 Hcells. split; [rewrite H1; eauto|].
    assert (W1 = W2) as ->
      by (apply (buffers_equal_cells W1 W2 A D S); (lia || done)).
    by eapply main_results_equal. }
  destruct (decide (S = 1)) as [->|HS1].
  - specialize (H2D eq_refl).
    assert (Z.of_nat (length residual) = A * D) as Hres' by lia.
    assert (Z.of_nat (length w1) = A * D) as Hw1' by lia.
    assert (Z.of_nat (length w2) = A * D) as Hw2' by lia.
    pose proof (selects_in_window_int hd H2D) as Hsd.
    destruct (decide (ha = 0)) as [->|Hane].
    + destruct (main2D_det residual w1 A D HA HD Hres' Hw1' hd hp Hsd)
        as (r1 & W1 & Hm1 & Hl1 & Hc1).
      destruct (main2D_det residual w2 A D HA HD Hres' Hw2' hd hp Hsd)
        as (r2 & W2 & Hm2 & Hl2 & Hc2).
      apply (Hfin r1 W1 r2 W2 Hm1 Hm2 Hl1 Hl2). intros k i j Hk Hi Hj.
      replace (D * A * k + i * D + j) with (i * D + j) by nia.
      specialize (Hc1 i j Hi Hj). specialize (Hc2 i j Hi Hj).
      open_cells. congruence.
    + assert (selects_in_window ha) as Hsa
        by (apply selects_in_window_int; lia).
      destruct (main2D_angles_det residual w1 A D HA HD Hres' Hw1' hd ha hp
                  Hsd Hsa)
        as (r1 & W1 & Hm1 & Hl1 & Hc1).
      destruct (main2D_angles_det residual w2 A D HA HD Hres' Hw2' hd ha hp
                  Hsd Hsa)
        as (r2 & W2 & Hm2 & Hl2 & Hc2).
      apply (Hfin r1 W1 r2 W2 Hm1 Hm2 Hl1 Hl2). intros k i j Hk Hi Hj.
      replace (D * A * k + i * D + j) with (i * D + j) by nia.
      specialize (Hc1 i j Hi Hj). specialize (Hc2 i j Hi Hj).
      open_cells. congruence.
  - destruct (H3D HS1) as (Hd0 & Hp0 & Hone).
    assert (2 ≤ S) as HS2 by lia.
    assert (ha ≠ 0 → selects_in_window ha) as Hsa
      by (intros; apply selects_in_window_int; lia).
    assert (hd ≠ 0 → selects_in_window hd) as Hsd
      by (intros; apply selects_in_window_int; lia).
    assert (hp ≠ 0 → selects_in_window hp) as Hsp
      by (intros; apply selects_in_window_int; lia).
    destruct (decide (ha = 0)) as [->|Hane],
      (decide (hd = 0)) as [->|Hdne], (decide (hp = 0)) as [->|Hpne];
      try lia.
    + destruct (main3D_proj_only residual w1 A D S HA HD HS2 Hres Hw1 hp
                  (Hsp Hpne))
        as (r1 & W1 & Hm1 & Hl1 & Hc1).
      destruct (main3D_proj_only residual w2 A D S HA HD HS2 Hres Hw2 hp
                  (Hsp Hpne))
        as (r2 & W2 & Hm2 & Hl2 & Hc2).
      apply (Hfin r1 W1 r2 W2 Hm1 Hm2 Hl1 Hl2). intros k i j Hk Hi Hj.
      specialize (Hc1 k i j Hk Hi Hj). specialize (Hc2 k i j Hk Hi Hj).
      open_cells. congruence.
    + destruct (main3D_det_only residual w1 A D S HA HD HS2 Hres Hw1 hd
                  (Hsd Hdne))
        as (r1 & W1 & Hm1 & Hl1 & Hc1).
      destruct (main3D_det_only residual w2 A D S HA HD HS2 Hres Hw2 hd
                  (Hsd Hdne))
        as (r2 & W2 & Hm2 & Hl2 & Hc2).
      apply (Hfin r1 W1 r2 W2 Hm1 Hm2 Hl1 Hl2). intros k i j Hk Hi Hj.
      specialize (Hc1 k i j Hk Hi Hj). specialize (Hc2 k i j Hk Hi Hj).
      open_cells. congruence.
    + destruct (main3D_proj_det residual w1 A D S HA HD HS2 Hres Hw1 hd hp
                  (Hsd Hdne) (Hsp Hpne))
        as (r1 & W1 & Hm1 & Hl1 & Hc1).
      destruct (main3D_proj_det residual w2 A D S HA HD HS2 Hres Hw2 hd hp
                  (Hsd Hdne) (Hsp Hpne))
        as (r2 & W2 & Hm2 & Hl2 & Hc2).
      apply (Hfin r1 W1 r2 W2 Hm1 Hm2 Hl1 Hl2). intros k i j Hk Hi Hj.
      specialize (Hc1 k i j Hk Hi Hj). specialize (Hc2 k i j Hk Hi Hj).
      open_cells. congruence.
    + destruct (main3D_angles_proj residual w1 A D S HA HD HS2 Hres Hw1 ha hp
                  (Hsa Hane) (Hsp Hpne))
        as (r1 & W1 & Hm1 & Hl1 & Hc1).
      destruct (main3D_angles_proj residual w2 A D S HA HD HS2 Hres Hw2 ha hp
                  (Hsa Hane) (Hsp Hpne))
        as (r2 & W2 & Hm2 & Hl2 & Hc2).
      apply (Hfin r1 W1 r2 W2 Hm1 Hm2 Hl1 Hl2). intros k i j Hk Hi Hj.
      specialize (Hc1 k i j Hk Hi Hj). specialize (Hc2 k i j Hk Hi Hj).
      open_cells. congruence.
    + destruct (main3D_angles_det residual w1 A D S HA HD HS2 Hres Hw1 hd ha
                  (Hsd Hdne) (Hsa Hane))
        as (r1 & W1 & Hm1 & Hl1 & Hc1).
      destruct (main3D_angles_det residual w2 A D S HA HD HS2 Hres Hw2 hd ha
                  (Hsd Hdne) (Hsa Hane))
        as (r2 & W2 & Hm2 & Hl2 & Hc2).
      apply (Hfin r1 W1 r2 W2 Hm1 Hm2 Hl1 Hl2). intros k i j Hk Hi Hj.
      specialize (Hc1 k i j Hk Hi Hj). specialize (Hc2 k i j Hk Hi Hj).
      open_cells. congruence.
    + destruct (main3D_all residual w1 A D S HA HD HS2 Hres Hw1 hd ha hp
                  (Hsd Hdne) (Hsa Hane) (Hsp Hpne))
        as (r1 & W1 & Hm1 & Hl1 & Hc1).
      destruct (main3D_all residual w2 A D S HA HD HS2 Hres Hw2 hd ha hp
                  (Hsd Hdne) (Hsa Hane) (Hsp Hpne))
        as (r2 & W2 & Hm2 & Hl2 & Hc2).
      apply (Hfin r1 W1 r2 W2 Hm1 Hm2 Hl1 Hl2). intros k i j Hk Hi Hj.
      specialize (Hc1 k i j Hk Hi Hj). specialize (Hc2 k i j Hk Hi Hj).
      open_cells. congruence.
Qed.

Lemma X12_witness :
  (1 ≤ 1 ∧ 1 ≤ 3 ∧ 1 ≤ 2 ∧ 0 ≤ 0 < 2 ^ 30 ∧ 1 ≤ 1 < 2 ^ 30)
  ∧ RingWeights_main volume_1x3x2 sevens_6 1 0 0 1 3 2
    = RingWeights_main volume_1x3x2 (calloc 6) 1 0 0 1 3 2.
Proof.
  split; [lia|].
  apply (X12_initial_weights_irrelevant volume_1x3x2 sevens_6 (calloc 6)
           1 0 0 1 3 2); (reflexivity || lia).
Defined.

(** ** Sources that do not vary along the filtered axis *)

Lemma axis_median_all_taps (src : list float) (h axisLen pos index : Z)
    (nb : Z → Z) (o : option float) :
  selects_in_window h →
  (∀ t, - h ≤ t ≤ h → tap src axisLen pos index nb t = o) →
  axis_median src h (2 * h + 1) axisLen pos index nb = o.
Proof.
  intros (mid & Hmid & Hr) Htap. assert (0 ≤ h) as Hh0 by lia.
  rewrite axis_median_sorted_window, Hmid by done.
  cbn [mbind option_bind].
  destruct (window src h axisLen pos index nb) as [w|] eqn:Hw;
    cbn [mbind option_bind].
  - pose proof (window_length _ _ _ _ _ _ _ Hh0 Hw) as Hlen.
    destruct (proj2 (load_is_Some (sort_window fgt w) mid)) as [v Hv].
    { rewrite sort_window_length. lia. }
    rewrite Hv.
    assert (v ∈ w) as Hin.
    { rewrite <- (sort_window_perm fgt w). unfold load in Hv.
      destruct (0 <=? mid); [|done]. apply list_elem_of_lookup. eauto. }
    destruct (window_elem_tap _ _ _ _ _ _ _ _ Hh0 Hw Hin) as (t & Ht & Hv').
    by rewrite <- Hv', Htap.
  - unfold window in Hw. apply mapM_None in Hw. apply Exists_exists in Hw
      as (t & Ht & Hnone).
    apply elem_of_seqZ in Ht. rewrite <- Hnone.
    apply Htap. lia.
Qed.

(** X13.  If the source holds one value [c] at the centre cell and at every
    neighbour on the axis within the window, a filter with half-size
    [h >= 1] (below 2^30) returns [c], whatever [c] is.  In particular a filter along an
    axis of length 1 returns the cell itself: the 2D angle filter when
    there is a single angle, the 2D detector filter when there is a single
    detector. *)
Theorem X13_constant_along_axis (src : list float) (h : Z) :
  1 ≤ h < 2 ^ 30 →
  (∀ axisLen pos index nb c,
     load src index = Some c →
     (∀ p, 0 ≤ p < axisLen → pos - h ≤ p ≤ pos + h →
           load src (nb p) = Some c) →
     axis_median src h (2 * h + 1) axisLen pos index nb = Some c)
  ∧ (∀ D j, angles2D_median src h (2 * h + 1) 1 D j 0
            = load src (0 * D + j))
  ∧ (∀ A i, det2D_median src h (2 * h + 1) A 1 0 i
            = load src (i * 1 + 0)).
Proof.
  intros Hh%selects_in_window_int. pose proof (selects_in_window_pos h Hh).
  split; [|split].
  - intros axisLen pos index nb c Hc Hnb. apply axis_median_all_taps; [done|].
    intros t Ht. unfold tap.
    destruct (Z.leb_spec 0 (pos + t)), (Z.ltb_spec (pos + t) axisLen);
      simpl; try done.
    apply Hnb; lia.
  - intros D j. apply axis_median_all_taps; [done|].
    intros t Ht. unfold tap.
    destruct (Z.leb_spec 0 (0 + t)), (Z.ltb_spec (0 + t) 1); simpl;
      try done.
    by replace (0 + t) with 0 by lia.
  - intros A i. apply axis_median_all_taps; [done|].
    intros t Ht. unfold tap.
    destruct (Z.leb_spec 0 (0 + t)), (Z.ltb_spec (0 + t) 1); simpl;
      try done.
    by replace (0 + t) with 0 by lia.
Qed.

Lemma X13_witness :
  1 ≤ 2 < 2 ^ 30 ∧ det2D_median row_5555 2 (2 * 2 + 1) 1 4 0 0 = Some (of_Z 5).
Proof.
  split; [lia|].
  destruct (X13_constant_along_axis row_5555 2) as (H & _); [lia|].
  apply (H 4 0 (0 * 4 + 0) (λ j1, 0 * 4 + j1) (of_Z 5)); [reflexivity|].
  intros p Hp _. unfold load.
  destruct (Z.leb_spec 0 (0 * 4 + p)); [|lia].
  assert (p = 0 ∨ p = 1 ∨ p = 2 ∨ p = 3) as [-> | [-> | [-> | ->]]] by lia;
    reflexivity.
Defined.

(** X14.  A residual that does not vary along the angle axis (each
    detector column holds one value, as a stripe does) passes through the 2D
    angle filter unchanged, so the angle window has no effect: for detector
    and angle half-sizes of at least 1 (and below 2^30) the call gives what
    it gives with the angle half-size set to zero.  A single angle is the
    simplest case. *)
Theorem X14_stripes_pass_angle_filter (residual weights : list float)
    (hd ha hp A D : Z) :
  1 ≤ A → 1 ≤ D →
  Z.of_nat (length residual) = A * D →
  Z.of_nat (length weights) = A * D →
  1 ≤ hd < 2 ^ 30 → 1 ≤ ha < 2 ^ 30 →
  (∀ i j, 0 ≤ i < A → 0 ≤ j < D →
          load residual (i * D + j) = load residual (0 * D + j)) →
  (∀ i j, 0 ≤ i < A → 0 ≤ j < D →
          angles2D_median residual ha (2 * ha + 1) A D j i
          = load residual (i * D + j))
  ∧ is_Some (RingWeights_main residual weights hd ha hp A D 1)
  ∧ RingWeights_main residual weights hd ha hp A D 1
    = RingWeights_main residual weights hd 0 hp A D 1.
Proof.
  intros HA HD Hres Hw Hd%selects_in_window_int Ha%selects_in_window_int
    Hcol.
  pose proof (selects_in_window_pos ha Ha) as Ha1.
  assert (∀ i j, 0 ≤ i < A → 0 ≤ j < D →
            angles2D_median residual ha (2 * ha + 1) A D j i
            = load residual (i * D + j)) as Hid.
  { intros i j Hi Hj. apply axis_median_all_taps; [done|].
    intros t Ht. unfold tap.
    destruct (Z.leb_spec 0 (i + t)), (Z.ltb_spec (i + t) A); simpl;
      try done.
    rewrite (Hcol (i + t) j), (Hcol i j) by lia. done. }
  split; [done|].
  destruct (main2D_angles_det residual weights A D HA HD Hres Hw
              hd ha hp Hd Ha) as (r1 & W1 & Hm1 & Hl1 & Hc1).
  destruct (main2D_det residual weights A D HA HD Hres Hw hd hp Hd)
    as (r2 & W2 & Hm2 & Hl2 & Hc2).
  split; [rewrite Hm1; eauto|].
  assert (W1 = W2) as ->.
  { apply (buffers_equal_cells W1 W2 A D 1); [lia..|].
    intros k i j Hk Hi Hj.
    replace (D * A * k + i * D + j) with (i * D + j) by nia.
    specialize (Hc1 i j Hi Hj). specialize (Hc2 i j Hi Hj).
    specialize (Hid i j Hi Hj).
    open_cells. congruence. }
  by eapply main_results_equal.
Qed.

Lemma X14_witness :
  (1 ≤ 2 ∧ 1 ≤ 2 ∧ 1 ≤ 1 < 2 ^ 30 ∧ 1 ≤ 2 < 2 ^ 30)
  ∧ RingWeights_main (of_Z <$> [3; 8; 3; 8]) (calloc 4) 1 2 0 2 2 1
    = RingWeights_main (of_Z <$> [3; 8; 3; 8]) (calloc 4) 1 0 0 2 2 1.
Proof.
  split; [lia|].
  apply (X14_stripes_pass_angle_filter (of_Z <$> [3; 8; 3; 8]) (calloc 4)
           1 2 0 2 2); try lia; try reflexivity.
  intros i j Hi Hj.
  assert (i = 0 ∨ i = 1) as [-> | ->] by lia;
    assert (j = 0 ∨ j = 1) as [-> | ->] by lia; reflexivity.
Defined.

(** ** The remaining 3D blocks *)

(** X15.  In the 3D path with angle and projection half-sizes of at least 1
    (and below 2^30) and detector half-size zero, the call returns and every
    cell holds [AngleMedian(residual) - ProjectionMedian(residual)]. *)
Theorem X15_angles_and_projections (residual weights : list float)
    (ha hp A D S : Z) :
  1 ≤ A → 1 ≤ D → 2 ≤ S →
  Z.of_nat (length residual) = A * D * S →
  Z.of_nat (length weights) = A * D * S →
  1 ≤ ha < 2 ^ 30 → 1 ≤ hp < 2 ^ 30 →
  ∃ r W, RingWeights_main residual weights 0 ha hp A D S = Some (r, W)
    ∧ length W = length weights
    ∧ ∀ k i j, 0 ≤ k < S → 0 ≤ i < A → 0 ≤ j < D →
        ∃ a p,
          angles3D_median residual ha (2 * ha + 1) A D S j i k = Some a
          ∧ proj3D_median residual hp (2 * hp + 1) A D S j i k = Some p
          ∧ load W (D * A * k + i * D + j) = Some (fsub a p).
Proof.
  intros. apply main3D_angles_proj; auto using selects_in_window_int.
Qed.

Lemma X15_witness :
  (1 ≤ 2 ∧ 2 ≤ 2 ∧ 1 ≤ 1 < 2 ^ 30)
  ∧ ∃ r W, RingWeights_main volume_2x2x2 (calloc 8) 0 1 1 2 2 2
           = Some (r, W).
Proof.
  split; [lia|].
  destruct (X15_angles_and_projections volume_2x2x2 (calloc 8) 1 1 2 2 2)
    as (r & W & H & _); try lia; try reflexivity. eauto.
Defined.

(** X16.  In the 3D path with angle and detector half-sizes of at least 1
    (and below 2^30) and projection half-size zero, the call returns and
    every cell holds [AngleMedian(residual) - DetectorMedian(residual)]. *)
Theorem X16_angles_and_detectors (residual weights : list float)
    (hd ha A D S : Z) :
  1 ≤ A → 1 ≤ D → 2 ≤ S →
  Z.of_nat (length residual) = A * D * S →
  Z.of_nat (length weights) = A * D * S →
  1 ≤ hd < 2 ^ 30 → 1 ≤ ha < 2 ^ 30 →
  ∃ r W, RingWeights_main residual weights hd ha 0 A D S = Some (r, W)
    ∧ length W = length weights
    ∧ ∀ k i j, 0 ≤ k < S → 0 ≤ i < A → 0 ≤ j < D →
        ∃ a d,
          angles3D_median residual ha (2 * ha + 1) A D S j i k = Some a
          ∧ det3D_median residual hd (2 * hd + 1) A D S j i k = Some d
          ∧ load W (D * A * k + i * D + j) = Some (fsub a d).
Proof.
  intros. apply main3D_angles_det; auto using selects_in_window_int.
Qed.

Lemma X16_witness :
  (1 ≤ 2 ∧ 2 ≤ 2 ∧ 1 ≤ 1 < 2 ^ 30)
  ∧ ∃ r W, RingWeights_main volume_2x2x2 (calloc 8) 1 1 0 2 2 2
           = Some (r, W).
Proof.
  split; [lia|].
  destruct (X16_angles_and_detectors volume_2x2x2 (calloc 8) 1 1 2 2 2)
    as (r & W & H & _); try lia; try reflexivity. eauto.
Defined.

(** X17.  In the 3D path with projection and detector half-sizes of at
    least 1 (and below 2^30) and angle half-size zero, the call returns and
    every cell holds [residual - 0.5 * (ProjectionMedian(residual) +
    DetectorMedian(residual))]. *)
Theorem X17_projections_and_detectors (residual weights : list float)
    (hd hp A D S : Z) :
  1 ≤ A → 1 ≤ D → 2 ≤ S →
  Z.of_nat (length residual) = A * D * S →
  Z.of_nat (length weights) = A * D * S →
  1 ≤ hd < 2 ^ 30 → 1 ≤ hp < 2 ^ 30 →
  ∃ r W, RingWeights_main residual weights hd 0 hp A D S = Some (r, W)
    ∧ length W = length weights
    ∧ ∀ k i j, 0 ≤ k < S → 0 ≤ i < A → 0 ≤ j < D →
        ∃ x p d,
          load residual (D * A * k + i * D + j) = Some x
          ∧ proj3D_median residual hp (2 * hp + 1) A D S j i k = Some p
          ∧ det3D_median residual hd (2 * hd + 1) A D S j i k = Some d
          ∧ load W (D * A * k + i * D + j)
            = Some (fsub x (fmul fhalf (fadd p d))).
Proof.
  intros. apply main3D_proj_det; auto using selects_in_window_int.
Qed.

Lemma X17_witness :
  (1 ≤ 2 ∧ 2 ≤ 2 ∧ 1 ≤ 1 < 2 ^ 30)
  ∧ ∃ r W, RingWeights_main volume_2x2x2 (calloc 8) 1 0 1 2 2 2
           = Some (r, W).
Proof.
  split; [lia|].
  destruct (X17_projections_and_detectors volume_2x2x2 (calloc 8) 1 1 2 2 2)
    as (r & W & H & _); try lia; try reflexivity. eauto.
Defined.

(** ** The 3D detector block, slice by slice *)

Lemma slice_of_length (buf : list float) (A D S k : Z) :
  1 ≤ A → 1 ≤ D → 0 ≤ k < S →
  Z.of_nat (length buf) = A * D * S →
  Z.of_nat (length (slice_of buf A D k)) = A * D.
Proof.
  intros HA HD Hk Hlen. unfold slice_of.
  rewrite length_take, length_drop.
  assert (k * (A * D) + A * D ≤ A * D * S) by nia.
  assert (0 ≤ k * (A * D)) by nia. lia.
Qed.

(** X18.  The detectors-only 3D block treats the slices independently: for
    a detector half-size of at least 1 (and below 2^30), slice [k] of its
    output is the output of the 2D call on slice [k] of the residual. *)
Theorem X18_detector_block_by_slice (residual weights weights2 : list float)
    (hd hp A D S k : Z) :
  1 ≤ A → 1 ≤ D → 2 ≤ S →
  Z.of_nat (length residual) = A * D * S →
  Z.of_nat (length weights) = A * D * S →
  Z.of_nat (length weights2) = A * D →
  1 ≤ hd < 2 ^ 30 → 0 ≤ k < S →
  ∃ r3 W3 r2 W2,
    RingWeights_main residual weights hd 0 0 A D S = Some (r3, W3)
    ∧ RingWeights_main (slice_of residual A D k) weights2 hd 0 hp A D 1
      = Some (r2, W2)
    ∧ slice_of W3 A D k = W2.
Proof.
  intros HA HD HS Hres Hw Hw2 Hd%selects_in_window_int Hk.
  pose proof (slice_of_length residual A D S k HA HD Hk Hres) as Hsl.
  destruct (main3D_det_only residual weights A D S HA HD HS Hres Hw hd Hd)
    as (r3 & W3 & Hm3 & Hl3 & Hc3).
  destruct (main2D_det (slice_of residual A D k) weights2 A D HA HD Hsl Hw2
              hd hp Hd) as (r2 & W2 & Hm2 & Hl2 & Hc2).
  exists r3, W3, r2, W2. split; [done|]. split; [done|].
  assert (Z.of_nat (length W3) = A * D * S) as HlW3 by lia.
  pose proof (slice_of_length W3 A D S k HA HD Hk HlW3) as HslW.
  apply load_ext; [lia|]. intros p.
  destruct (decide (0 ≤ p < A * D)) as [Hp|Hp].
  - destruct (flat_index_cell A D 1 p HA HD ltac:(lia))
      as (k0 & i & j & Hk0 & Hi & Hj & ->).
    replace (D * A * k0 + i * D + j) with (i * D + j) by nia.
    pose proof (index2D_bound A D i j Hi Hj) as Hb.
    rewrite load_slice_of by lia.
    replace (D * A * k + (i * D + j)) with (D * A * k + i * D + j) by lia.
    destruct (Hc3 k i j Hk Hi Hj) as (x & d & Hx & Hmd & ->).
    destruct (Hc2 i j Hi Hj) as (x' & d' & Hx' & Hmd' & ->).
    rewrite load_slice_of in Hx' by lia.
    replace (D * A * k + (i * D + j)) with (D * A * k + i * D + j) in Hx'
      by lia.
    rewrite <- (det3D_median_slice residual hd (2 * hd + 1) A D S j i k)
      in Hmd' by lia.
    congruence.
  - destruct (decide (p < 0)).
    + by rewrite !load_neg.
    + by rewrite !load_ge by lia.
Qed.

Lemma X18_witness :
  (1 ≤ 1 ∧ 1 ≤ 3 ∧ 2 ≤ 2 ∧ 1 ≤ 1 < 2 ^ 30 ∧ 0 ≤ 1 < 2)
  ∧ ∃ r3 W3 r2 W2,
      RingWeights_main volume_1x3x2 sevens_6 1 0 0 1 3 2 = Some (r3, W3)
      ∧ RingWeights_main (slice_of volume_1x3x2 1 3 1) (calloc 3) 1 0 0 1 3 1
        = Some (r2, W2)
      ∧ slice_of W3 1 3 1 = W2.
Proof.
  split; [lia|].
  apply (X18_detector_block_by_slice volume_1x3x2 sevens_6 (calloc 3)
           1 0 1 3 2 1); (reflexivity || lia).
Defined.
